(** * a2f-client: the streaming manager of [app/streaming_logic.py]

    A shallow embedding of [StreamingManager] (lock files, port allocation,
    slicing of a job, the adaptive frame rate, the ordered drain of the slice
    tasks) and of the part of [app/main.py] that validates a request, followed
    by the properties proved about them.

    Conventions.
    - Python [int] is [Z]; [len], list indices and loop counters are [nat].
    - Python [float] (durations, slice bounds, elapsed wall time, the
      throughput ratio) is rendered as an exact rational [Q]; [math.ceil] and
      [math.floor] are [Qceiling] and [Qfloor].  Module [Binary64] replays the
      two documented scenarios with IEEE doubles.
    - An operation that can raise returns a [result]; the exception classes
      that occur are listed in [exn_class] with their method resolution order.
    - What the operating system, the random generator, the workers and the
      event loop decide is an explicit argument: a [world] for the lock code,
      a list of [event]s for the scheduler. *)

From Stdlib Require Import ZArith QArith Qround Qminmax Lia Lqa List Bool.
From Stdlib Require Import String.
From Stdlib Require Import Sorted Uint63 PrimFloat FloatOps SpecFloat.
From stdpp Require Import gmap.
Import ListNotations.
Open Scope Z_scope.

(** ** Python helpers *)

Module Py.

(** [range(n)] for an integer [n]: empty when [n <= 0]. *)
Definition range (n : Z) : list Z := map Z.of_nat (seq 0 (Z.to_nat n)).

(** [range(a, b)]. *)
Definition range2 (a b : Z) : list Z := map (fun i => a + i) (range (b - a)).

(** [random.uniform(a, b)] is [a + (b - a) * random()], with [random()] a
    sample [r] of [[0, 1)]. *)
Definition uniform (a b r : Q) : Q := (a + (b - a) * r)%Q.

(** The exception classes that the modelled code raises or names in an
    [except] clause. *)
Inductive exn_class : Set :=
| BaseException | Exception | KeyboardInterrupt
| OSError | BlockingIOError | FileNotFoundError | PermissionError
| ValueError | JSONDecodeError | ValidationError
| TypeError | ArithmeticError | ZeroDivisionError | RuntimeError.

Definition exn_eqb (a b : exn_class) : bool :=
  match a, b with
  | BaseException, BaseException | Exception, Exception
  | KeyboardInterrupt, KeyboardInterrupt
  | OSError, OSError | BlockingIOError, BlockingIOError
  | FileNotFoundError, FileNotFoundError | PermissionError, PermissionError
  | ValueError, ValueError | JSONDecodeError, JSONDecodeError
  | ValidationError, ValidationError | TypeError, TypeError
  | ArithmeticError, ArithmeticError | ZeroDivisionError, ZeroDivisionError
  | RuntimeError, RuntimeError => true
  | _, _ => false
  end.

(** Method resolution order: the class followed by its bases. *)
Definition mro (c : exn_class) : list exn_class :=
  match c with
  | BaseException => [BaseException]
  | Exception => [Exception; BaseException]
  | KeyboardInterrupt => [KeyboardInterrupt; BaseException]
  | OSError => [OSError; Exception; BaseException]
  | BlockingIOError => [BlockingIOError; OSError; Exception; BaseException]
  | FileNotFoundError => [FileNotFoundError; OSError; Exception; BaseException]
  | PermissionError => [PermissionError; OSError; Exception; BaseException]
  | ValueError => [ValueError; Exception; BaseException]
  | JSONDecodeError => [JSONDecodeError; ValueError; Exception; BaseException]
  | ValidationError => [ValidationError; ValueError; Exception; BaseException]
  | TypeError => [TypeError; Exception; BaseException]
  | ArithmeticError => [ArithmeticError; Exception; BaseException]
  | ZeroDivisionError =>
      [ZeroDivisionError; ArithmeticError; Exception; BaseException]
  | RuntimeError => [RuntimeError; Exception; BaseException]
  end.

Definition issubclass (c base : exn_class) : bool :=
  existsb (exn_eqb base) (mro c).

(** An [except (A, B, ...)] clause catches an exception of class [c] when [c]
    is a subclass of one of the listed classes. *)
Definition catches (clause : list exn_class) (c : exn_class) : bool :=
  existsb (issubclass c) clause.

(** A [try] statement runs the first clause, in source order, that catches
    the exception; [None] when the exception propagates. *)
Fixpoint handler_of (clauses : list (list exn_class)) (c : exn_class)
  : option nat :=
  match clauses with
  | [] => None
  | cl :: rest =>
      if catches cl c then Some 0%nat
      else option_map S (handler_of rest c)
  end.

(** The outcome of a call: a value or a raised exception. *)
Inductive result (A : Type) : Type :=
| Ok (a : A)
| Raised (c : exn_class).
Arguments Ok {A} a.
Arguments Raised {A} c.

End Py.
Import Py.

(** ** Lock files and port allocation *)

(** An open file object, named by its allocation number. *)
Definition file : Set := nat.

(** The files the process has open. *)
Record process : Type := mkProcess {
  opened : gset file;
  next_file : file
}.

(** What the operating system answers to one run of the [try] body of
    [_acquire_lock]: the outcome of [open(path, "w")] and, when that
    succeeded, of the non-blocking exclusive lock ([msvcrt.locking] or
    [fcntl.flock]). *)
Record os_answer : Type := mkAnswer {
  open_outcome : result unit;
  lock_outcome : result unit
}.

(** The [try] body of [_acquire_lock] (lines 44-51 and again 58-65): on
    success the open file is stored in [locked_files]; on an exception the
    class raised is reported together with [lock_file] as it stands. *)
Definition try_lock (locked_files : gmap Z file) (pr : process) (number : Z)
    (os : os_answer)
  : gmap Z file * process * (unit + exn_class * option file) :=
  match open_outcome os with
  | Raised c => (locked_files, pr, inr (c, None))
  | Ok _ =>
      let f := next_file pr in
      let pr' := mkProcess ({[f]} ∪ opened pr) (S f) in
      match lock_outcome os with
      | Raised c => (locked_files, pr', inr (c, Some f))
      | Ok _ => (<[number := f]> locked_files, pr', inl tt)
      end
  end.

(** [if lock_file: lock_file.close()]. *)
Definition close_if (lock_file : option file) (pr : process) : process :=
  match lock_file with
  | Some f => mkProcess (opened pr ∖ {[f]}) (next_file pr)
  | None => pr
  end.

(** The clauses of the outer [try] of [_acquire_lock], in source order. *)
Definition acquire_clauses : list (list exn_class) :=
  [[BlockingIOError; OSError]; [FileNotFoundError]].

(** The clause of the [try] nested in the [FileNotFoundError] handler. *)
Definition retry_clauses : list (list exn_class) :=
  [[BlockingIOError; OSError]].

(** [StreamingManager._acquire_lock(number)].  [os] answers the first
    attempt, [os2] the attempt of the [FileNotFoundError] handler. *)
Definition _acquire_lock (locked_files : gmap Z file) (pr : process)
    (number : Z) (os os2 : os_answer)
  : gmap Z file * process * result bool :=
  match try_lock locked_files pr number os with
  | (lf, pr1, inl _) => (lf, pr1, Ok true)
  | (lf, pr1, inr (c, lock_file)) =>
      match handler_of acquire_clauses c with
      | Some 0%nat => (lf, close_if lock_file pr1, Ok false)
      | Some (S _) =>
          match try_lock lf pr1 number os2 with
          | (lf2, pr2, inl _) => (lf2, pr2, Ok true)
          | (lf2, pr2, inr (c2, lock_file2)) =>
              match handler_of retry_clauses c2 with
              | Some _ => (lf2, close_if lock_file2 pr2, Ok false)
              | None => (lf2, pr2, Raised c2)
              end
          end
      | None => (lf, pr1, Raised c)
      end
  end.

(** What lies outside the program during port allocation: the sample drawn by
    the [k]-th call of [random.uniform], and the operating system's answers
    to the [k]-th call of [_acquire_lock]. *)
Record world : Type := mkWorld {
  sample : nat -> Q;
  answer : nat -> Z -> os_answer;
  answer2 : nat -> Z -> os_answer
}.

(** One try of [_next_port]: the time slept and the port tried. *)
Definition try_log : Type := list (Q * Z).

(** The state threaded through port allocation. *)
Record alloc : Type := mkAlloc {
  a_locked : gmap Z file;
  a_process : process;
  a_tries : nat;
  a_log : try_log
}.

(** The inner loop of [_next_port]: [Some (inl port)] when a lock was
    taken, [Some (inr c)] when [_acquire_lock] let [c] escape, [None] when
    the sweep ends without a port. *)
Fixpoint sweep (w : world) (ports : list Z) (st : alloc)
  : alloc * option (Z + exn_class) :=
  match ports with
  | [] => (st, None)
  | port :: rest =>
      let k := a_tries st in
      let delay := uniform (1 # 10) (1 # 2) (sample w k) in
      let '(lf, pr, r) :=
        _acquire_lock (a_locked st) (a_process st) port
          (answer w k port) (answer2 w k port) in
      let st' := mkAlloc lf pr (S k) (a_log st ++ [(delay, port)]) in
      match r with
      | Ok true => (st', Some (inl port))
      | Ok false => sweep w rest st'
      | Raised c => (st', Some (inr c))
      end
  end.

(** [for _ in range(rounds)] around the sweep, then the [RuntimeError]. *)
Fixpoint sweeps (w : world) (ports : list Z) (rounds : nat) (st : alloc)
  : alloc * result Z :=
  match rounds with
  | O => (st, Raised RuntimeError)
  | S rounds' =>
      match sweep w ports st with
      | (st', Some (inl port)) => (st', Ok port)
      | (st', Some (inr c)) => (st', Raised c)
      | (st', None) => sweeps w ports rounds' st'
      end
  end.

(** [StreamingManager._next_port()]. *)
Definition _next_port (w : world) (available_ports : list Z) (st : alloc)
  : alloc * result Z :=
  sweeps w available_ports 10 st.

(** ** The manager object *)

(** The per-job emotion weights of [app/config.py]. *)
Record EmotionWeights : Type := mkEmotions {
  amazement : Q; anger : Q; cheekiness : Q; disgust : Q; fear : Q;
  grief : Q; joy : Q; outofbreath : Q; pain : Q; sadness : Q
}.

(** The attributes of [StreamingManager] that change after construction or
    depend on the configuration.  A client is named by the port it is bound
    to; an [asyncio.Lock] is its [locked] flag. *)
Record StreamingManager : Type := mkManager {
  available_ports : list Z;
  locked_files : gmap Z file;
  a2f_clients : list Z;
  client_locks : list bool;
  current_fps : Z
}.

(** The attributes assigned once in [__init__] and never again. *)
Definition chunk_size : Q := 3 # 10.
Definition default_fps : Z := 10.
Definition max_fps : Z := 30.
Definition min_fps : Z := 10.

(** The list comprehension of [__init__] that binds one client per call of
    [_next_port]. *)
Fixpoint bind_clients (w : world) (ports : list Z) (n : nat) (st : alloc)
  : alloc * result (list Z) :=
  match n with
  | O => (st, Ok [])
  | S n' =>
      match _next_port w ports st with
      | (st', Raised c) => (st', Raised c)
      | (st', Ok port) =>
          match bind_clients w ports n' st' with
          | (st'', Ok rest) => (st'', Ok (port :: rest))
          | (st'', Raised c) => (st'', Raised c)
          end
      end
  end.

(** [StreamingManager.__init__(clients_per_worker)], with
    [Config.DEFAULT_WORKERS] as an argument. *)
Definition __init__ (w : world) (pr : process)
    (DEFAULT_WORKERS clients_per_worker : Z)
  : alloc * result StreamingManager :=
  let ports := range2 8190 (8190 + DEFAULT_WORKERS * clients_per_worker) in
  match bind_clients w ports (Z.to_nat clients_per_worker)
          (mkAlloc ∅ pr 0 []) with
  | (st, Raised c) => (st, Raised c)
  | (st, Ok clients) =>
      (st, Ok (mkManager ports (a_locked st) clients
                 (map (fun _ => false) clients) 30))
  end.

Definition set_current_fps (self : StreamingManager) (fps : Z)
  : StreamingManager :=
  mkManager (available_ports self) (locked_files self) (a2f_clients self)
    (client_locks self) fps.

Definition set_client_locks (self : StreamingManager) (locks : list bool)
  : StreamingManager :=
  mkManager (available_ports self) (locked_files self) (a2f_clients self)
    locks (current_fps self).

(** ** Rate control (lines 120-125 of [generate_blendshapes_coroutine]) *)

(** [alpha = (end - start) / elapsed_time]; a zero [elapsed_time] raises
    [ZeroDivisionError]. *)
Definition throughput (start end_ elapsed_time : Q) : result Q :=
  if Qeq_bool elapsed_time 0 then Raised ZeroDivisionError
  else Ok ((end_ - start) / elapsed_time)%Q.

(** [safe_fps = max(min_fps,
                    floor(len(a2f_clients) * current_fps * alpha - 7))]. *)
Definition safe_fps (n_clients : nat) (fps : Z) (alpha : Q) : Z :=
  Z.max min_fps
    (Qfloor (inject_Z (Z.of_nat n_clients) * inject_Z fps * alpha - 7)%Q).

(** [current_fps = min(max_fps, (current_fps + safe_fps) // 2)]; on integers
    Python's [//] is the floor division [Z.div]. *)
Definition adjust_fps (n_clients : nat) (fps : Z) (alpha : Q) : Z :=
  Z.min max_fps ((fps + safe_fps n_clients fps alpha) / 2).

(** The successive values of [current_fps] over a run of rate updates. *)
Fixpoint fps_trace (n_clients : nat) (fps : Z) (alphas : list Q) : list Z :=
  match alphas with
  | [] => [fps]
  | alpha :: rest =>
      fps :: fps_trace n_clients (adjust_fps n_clients fps alpha) rest
  end.

(** ** Slices (lines 148-155 of [submit_job]) *)

(** [nr_splits = math.ceil(duration / chunk_size - 0.5)]. *)
Definition nr_splits (duration : Q) : Z :=
  Qceiling (duration / chunk_size - (1 # 2))%Q.

(** The list comprehension building [chunks]. *)
Definition chunks (duration : Q) : list (Q * Q) :=
  map (fun i : Z =>
         (inject_Z i * chunk_size,
          Qmin (inject_Z (i + 1) * chunk_size) duration)%Q)
      (range (nr_splits duration)).

(** ** Job scheduling *)

(** The payload a worker returns for a slice. *)
Definition blendshapes : Type := list Q.

(** A call made on a worker; the client is named by its pool index. *)
Inductive call : Type :=
| set_audio (client : nat) (audio_path : string)
| set_emotions (client : nat) (weights : EmotionWeights)
| generate_blendshapes (client : nat) (start end_ : Q) (fps : Z)
    (use_a2e : bool).

(** Where a slice task stands: created and waiting for its client's lock,
    inside the worker call, or finished with a payload or an exception. *)
Inductive task_state : Type :=
| Pending
| Running
| Done (payload : blendshapes)
| Failed (c : exn_class).

Record task : Type := mkTask {
  client_idx : nat;
  t_start : Q;
  t_end : Q;
  t_use_a2e : bool;
  t_state : task_state
}.

Definition set_state (t : task) (s : task_state) : task :=
  mkTask (client_idx t) (t_start t) (t_end t) (t_use_a2e t) s.

(** The async generator of [submit_job]: suspended or running its loop,
    finished, closed by its consumer, or ended by an exception. *)
Inductive stream_state : Type :=
| Open
| Exhausted
| Closed
| Errored (c : exn_class).

(** A submitted job: the manager, the launched tasks in slice order, the
    worker calls made so far (oldest first), the index [idx] of the draining
    loop, and the records yielded so far as [(chunk_id, result)]. *)
Record job : Type := mkJob {
  manager : StreamingManager;
  tasks : list task;
  calls : list call;
  idx : nat;
  emitted : list (nat * blendshapes);
  stream : stream_state
}.

(** The setup pushed to every client (lines 143-146). *)
Definition setup_calls (n_clients : nat) (audio_path : string)
    (emotions : option EmotionWeights) : list call :=
  flat_map
    (fun client =>
       set_audio client audio_path ::
       match emotions with
       | Some weights => [set_emotions client weights]
       | None => []
       end)
    (seq 0 n_clients).

(** The tasks created by the loop of lines 156-162. *)
Definition launch (n_clients : nat) (use_a2e : bool) (cs : list (Q * Q))
  : list task :=
  imap (fun i '(start, end_) =>
          mkTask (i mod n_clients) start end_ use_a2e Pending) cs.

(** [submit_job] up to its first suspension: [loaded] is what [load_audio]
    returned, [(audio_path, duration)].  With an empty pool the first
    [i % len(self.a2f_clients)] raises [ZeroDivisionError] (no setup call
    was made then, the pool being empty). *)
Definition submit_job (self : StreamingManager) (loaded : string * Q)
    (fps : option Z) (emotions : option EmotionWeights) (use_a2e : bool)
  : result job :=
  let fps := match fps with None => default_fps | Some fps => fps end in
  let self := set_current_fps self fps in
  let '(audio_path, duration) := loaded in
  let n_clients := length (a2f_clients self) in
  let setup := setup_calls n_clients audio_path emotions in
  match chunks duration, n_clients with
  | _ :: _, O => Raised ZeroDivisionError
  | cs, _ => Ok (mkJob self (launch n_clients use_a2e cs) setup 0 [] Open)
  end.

(** What the event loop, the workers and the consumer do next. *)
Inductive event : Type :=
| Acquire (i : nat)
    (* task [i] enters [async with client_locks[client_idx]] and its
       [generate_blendshapes] call is handed to the executor *)
| Return (i : nat) (payload : blendshapes) (elapsed_time : Q)
    (* the worker call of task [i] returns after [elapsed_time] seconds *)
| Throw (i : nat) (c : exn_class)
    (* the worker call of task [i] raises *)
| Next
    (* the draining loop gets past [await task] for [tasks[idx]] *)
| Disconnect
    (* the consumer drops the generator while it is suspended at [yield] *).

Definition unlock (locks : list bool) (client : nat) : list bool :=
  <[client := false]> locks.

(** One step of the job; [None] when the event cannot happen in this state
    (a task waiting for a held lock, an [await] on an unfinished task). *)
Definition step (j : job) (e : event) : option job :=
  let self := manager j in
  match e with
  | Acquire i =>
      match tasks j !! i with
      | Some t =>
          match t_state t, client_locks self !! client_idx t with
          | Pending, Some false =>
              Some (mkJob
                      (set_client_locks self
                         (<[client_idx t := true]> (client_locks self)))
                      (<[i := set_state t Running]> (tasks j))
                      (calls j ++
                         [generate_blendshapes (client_idx t) (t_start t)
                            (t_end t) (current_fps self) (t_use_a2e t)])
                      (idx j) (emitted j) (stream j))
          | _, _ => None
          end
      | None => None
      end
  | Return i payload elapsed_time =>
      match tasks j !! i with
      | Some t =>
          match t_state t with
          | Running =>
              let locks := unlock (client_locks self) (client_idx t) in
              match throughput (t_start t) (t_end t) elapsed_time with
              | Ok alpha =>
                  let fps :=
                    adjust_fps (length (a2f_clients self))
                      (current_fps self) alpha in
                  Some (mkJob
                          (set_client_locks (set_current_fps self fps) locks)
                          (<[i := set_state t (Done payload)]> (tasks j))
                          (calls j) (idx j) (emitted j) (stream j))
              | Raised c =>
                  Some (mkJob (set_client_locks self locks)
                          (<[i := set_state t (Failed c)]> (tasks j))
                          (calls j) (idx j) (emitted j) (stream j))
              end
          | _ => None
          end
      | None => None
      end
  | Throw i c =>
      match tasks j !! i with
      | Some t =>
          match t_state t with
          | Running =>
              Some (mkJob
                      (set_client_locks self
                         (unlock (client_locks self) (client_idx t)))
                      (<[i := set_state t (Failed c)]> (tasks j))
                      (calls j) (idx j) (emitted j) (stream j))
          | _ => None
          end
      | None => None
      end
  | Next =>
      match stream j with
      | Open =>
          match tasks j !! idx j with
          | None =>
              Some (mkJob self (tasks j) (calls j) (idx j) (emitted j)
                      Exhausted)
          | Some t =>
              match t_state t with
              | Done payload =>
                  Some (mkJob self (tasks j) (calls j) (S (idx j))
                          (emitted j ++ [(idx j, payload)]) Open)
              | Failed c =>
                  Some (mkJob self (tasks j) (calls j) (idx j) (emitted j)
                          (Errored c))
              | _ => None
              end
          end
      | _ => None
      end
  | Disconnect =>
      match stream j, idx j with
      | Open, S _ =>
          Some (mkJob self (tasks j) (calls j) (idx j) (emitted j) Closed)
      | _, _ => None
      end
  end.

(** A run: the events are taken one after the other. *)
Fixpoint run (j : job) (evs : list event) : option job :=
  match evs with
  | [] => Some j
  | e :: rest =>
      match step j e with
      | Some j' => run j' rest
      | None => None
      end
  end.

(** ** The request handler of [app/main.py] *)

(** What [process_audio_endpoint] answers: an [HTTPException] with its status
    code, another exception that escapes the handler, or a streaming response
    whose body is the generator of [submit_job] (shown after its first
    resumption). *)
Inductive response : Type :=
| HTTPException (status_code : Z)
| Unhandled (c : exn_class)
| StreamingResponse (body : result job).

(** [except (json.JSONDecodeError, ValueError)] around the parsing of the
    [emotions] form field. *)
Definition emotions_clauses : list (list exn_class) :=
  [[JSONDecodeError; ValueError]].

(** [process_audio_endpoint(fps, emotions, audio_file)].  [parse] stands for
    [json.loads(emotions)] followed by the construction of [EmotionWeights]
    from its keys, [saved] for the outcome of
    [save_audio_file] ([None] when it raised its [HTTPException] 500), and
    [load_audio] for the decoder used by [submit_job]. *)
Definition process_audio_endpoint
    (streaming_manager : option StreamingManager)
    (parse : string -> result EmotionWeights)
    (saved : option string) (load_audio : string -> string * Q)
    (fps : option Z) (emotions : option string) : response :=
  match streaming_manager with
  | None => HTTPException 500
  | Some self =>
      let parsed :=
        match emotions with
        | None | Some EmptyString => Ok None
        | Some text =>
            match parse text with
            | Ok weights => Ok (Some weights)
            | Raised c => Raised c
            end
        end in
      match parsed with
      | Raised c =>
          match handler_of emotions_clauses c with
          | Some _ => HTTPException 400
          | None => Unhandled c
          end
      | Ok emotion_weights =>
          match saved with
          | None => HTTPException 500
          | Some audio_filename =>
              StreamingResponse
                (submit_job self (load_audio audio_filename) fps
                   emotion_weights false)
          end
      end
  end.

(** The worker calls a response gives rise to. *)
Definition worker_calls (r : response) : list call :=
  match r with
  | StreamingResponse (Ok j) => calls j
  | _ => []
  end.

(** ** Predicates used in the statements *)

Definition in_bounds (fps : Z) : Prop := min_fps <= fps <= max_fps.

Definition is_generate (c : call) : bool :=
  match c with
  | generate_blendshapes _ _ _ _ _ => true
  | _ => false
  end.

Definition finished (t : task) : bool :=
  match t_state t with
  | Done _ | Failed _ => true
  | _ => false
  end.

Definition failed (t : task) : bool :=
  match t_state t with
  | Failed _ => true
  | _ => false
  end.

(** The operating system granted the lock. *)
Definition granted (os : os_answer) : bool :=
  match open_outcome os, lock_outcome os with
  | Ok _, Ok _ => true
  | _, _ => false
  end.

(** [open] and the locking call fail with an [OSError] only. *)
Definition os_errors_only (os : os_answer) : Prop :=
  (forall c, open_outcome os = Raised c -> issubclass c OSError = true) /\
  (forall c, lock_outcome os = Raised c -> issubclass c OSError = true).

(** The tries [tried], the first of which is try number [k0], slept what
    [random.uniform(0.1, 0.5)] drew. *)
Definition sleeps_drawn (w : world) (k0 : nat) (tried : try_log) : Prop :=
  forall (i : nat) d p, tried !! i = Some (d, p) ->
    d = uniform (1 # 10) (1 # 2) (sample w (k0 + i)%nat).

(** None of the tries [tried] was granted its lock. *)
Definition all_refused (w : world) (k0 : nat) (tried : try_log) : Prop :=
  forall (i : nat) d p, tried !! i = Some (d, p) ->
    granted (answer w (k0 + i)%nat p) = false.


(** ** Invariants of a running job *)

(** Every task is bound to a client of the pool, and a held client lock is
    held by a task of that client that is inside its worker call. *)
Definition locks_owned (j : job) : Prop :=
  (forall (i : nat) t, tasks j !! i = Some t ->
     (client_idx t < length (client_locks (manager j)))%nat) /\
  (forall (c : nat), client_locks (manager j) !! c = Some true ->
     exists (i : nat) t,
       tasks j !! i = Some t /\ client_idx t = c /\ t_state t = Running).

(** The records yielded so far are those of the slices [0 .. idx - 1], in
    that order, each with the payload its task returned. *)
Definition drained_in_order (j : job) : Prop :=
  length (emitted j) = idx j /\
  (idx j <= length (tasks j))%nat /\
  (forall (k : nat) r, emitted j !! k = Some r ->
     fst r = k /\
     exists t, tasks j !! k = Some t /\ t_state t = Done (snd r)) /\
  (stream j = Exhausted -> idx j = length (tasks j)).

(** The pool as [__init__] leaves it: one free lock per client. *)
Definition idle (self : StreamingManager) : Prop :=
  client_locks self = map (fun _ => false) (a2f_clients self).

(** [j'] continues [j] without the consumer moving: tasks only advance, and
    none fails that had not failed already. *)
Definition advances (j j' : job) : Prop :=
  idx j' = idx j /\ emitted j' = emitted j /\ stream j' = stream j /\
  length (tasks j') = length (tasks j) /\
  forall (i : nat) t, tasks j !! i = Some t ->
    exists t', tasks j' !! i = Some t' /\
      (finished t = true -> t' = t) /\
      (failed t' = true -> failed t = true).


(** ** The rate update as the specification words it

    A second rendering, from the text of the specification, with the exact
    mean [(currentFps + estimatedSafeFps) / 2]; it is compared with
    [adjust_fps] below. *)




(** ** The slices in IEEE double arithmetic

    [chunks] once more, with the operations of binary64 that the interpreter
    performs, to replay the documented scenarios. *)

Module Binary64.

(** The rational value of a finite double (0 for infinities and NaN, which
    do not occur below). *)
Definition to_Q (x : float) : Q :=
  match Prim2SF x with
  | S754_finite s m e =>
      let magnitude :=
        if (0 <=? e)%Z then inject_Z (Z.pos m * 2 ^ e)
        else (Z.pos m # Pos.shiftl 1 (Z.to_N (- e)))%Q in
      if s then (- magnitude)%Q else magnitude
  | _ => 0%Q
  end.

(** [math.ceil] of a double. *)
Definition ceil (x : float) : Z := Qceiling (to_Q x).

(** The conversion of a small non-negative [int] in [i * chunk_size]. *)
Definition of_int (i : Z) : float := PrimFloat.of_uint63 (Uint63.of_Z i).

(** Python's [min(a, b)]: [b] when [b < a], else [a]. *)
Definition min (a b : float) : float := if PrimFloat.ltb b a then b else a.

(** The double nearest to 0.3. *)
Definition chunk_size : float := 0x1.3333333333333p-2%float.

(** The double nearest to 0.1. *)
Definition tenth : float := 0x1.999999999999ap-4%float.

Definition nr_splits (duration : float) : Z :=
  ceil (duration / chunk_size - 0.5)%float.

Definition chunks (duration : float) : list (float * float) :=
  map (fun i : Z =>
         (of_int i * chunk_size,
          min (of_int (i + 1) * chunk_size) duration)%float)
      (range (nr_splits duration)).

End Binary64.

(** ** Concrete inputs used in the examples *)

(** The lock file opens but another process holds the lock. *)
Definition contended : os_answer := mkAnswer (Ok tt) (Raised BlockingIOError).

(** The lock file opens and the lock is granted. *)
Definition unlocked : os_answer := mkAnswer (Ok tt) (Ok tt).

(** The first three tries are refused, later ones granted. *)
Definition busy_then_free : world :=
  mkWorld (fun _ => 1 # 4)
    (fun k _ => if (k <? 3)%nat then contended else unlocked)
    (fun _ _ => unlocked).

Definition fresh_alloc : alloc := mkAlloc ∅ (mkProcess ∅ 0%nat) 0 [].

(** A manager with a pool of two idle clients. *)
Definition idle_pair : StreamingManager :=
  mkManager [8190; 8191; 8192; 8193] ∅ [8190; 8191] [false; false] 30.

(** Three slices on two clients; the worker of slice 1 answers first. *)
Definition worker1_first : list event :=
  [Acquire 0; Acquire 1; Return 1 [2%Q] (1 # 2); Return 0 [1%Q] 1; Next; Next;
   Acquire 2; Return 2 [3%Q] 1; Next; Next].



(** A parser that rejects every text, as [json.loads] does a malformed one. *)
Definition reject_all (text : string) : result EmotionWeights :=
  Raised JSONDecodeError.

(** A decoder that reports an empty recording. *)
Definition empty_recording (audio_filename : string) : string * Q :=
  (audio_filename, 0%Q).

(** ** Releasing the lock files *)

(** [StreamingManager._release_lock(number)].  [unlock] is what the system
    answers to the unlock call; the [finally] clause closes the file and
    forgets the number whatever that answer is. *)
Definition _release_lock (locked_files : gmap Z file) (pr : process)
    (number : Z) (unlock : result unit)
  : gmap Z file * process * result unit :=
  match locked_files !! number with
  | Some lock_file =>
      let lf := delete number locked_files in
      let pr' := close_if (Some lock_file) pr in
      match unlock with
      | Ok _ => (lf, pr', Ok tt)
      | Raised c =>
          if catches [OSError] c then (lf, pr', Ok tt)
          else (lf, pr', Raised c)
      end
  | None => (locked_files, pr, Ok tt)
  end.

(** [for port in keys: self._release_lock(port)], where [keys] is the
    snapshot [list(self.locked_files.keys())] and [unlock port] the system's
    answer to the unlock call for [port]. *)
Fixpoint release_ports (keys : list Z) (unlock : Z -> result unit)
    (locked_files : gmap Z file) (pr : process)
  : gmap Z file * process * result unit :=
  match keys with
  | [] => (locked_files, pr, Ok tt)
  | port :: rest =>
      match _release_lock locked_files pr port (unlock port) with
      | (lf, pr', Ok _) => release_ports rest unlock lf pr'
      | (lf, pr', Raised c) => (lf, pr', Raised c)
      end
  end.

(** [keys] lists every key of the dictionary, as a snapshot of its keys
    does. *)
Definition snapshot_of (locked_files : gmap Z file) (keys : list Z) : Prop :=
  forall port, is_Some (locked_files !! port) -> port ∈ keys.

Definition set_locked_files (self : StreamingManager)
    (locked_files : gmap Z file) : StreamingManager :=
  mkManager (available_ports self) locked_files (a2f_clients self)
    (client_locks self) (current_fps self).

(** The shutdown half of [lifespan] in [app/main.py]: every port of
    [streaming_manager.locked_files] is released. *)
Definition lifespan_shutdown (streaming_manager : StreamingManager)
    (pr : process) (keys : list Z) (unlock : Z -> result unit)
  : StreamingManager * process * result unit :=
  match release_ports keys unlock (locked_files streaming_manager) pr with
  | (lf, pr', r) => (set_locked_files streaming_manager lf, pr', r)
  end.



(** The unlock call fails with an [OSError] only. *)
Definition unlock_errors_only (unlock : Z -> result unit) : Prop :=
  forall port c, unlock port = Raised c -> issubclass c OSError = true.

(** ** Slow slices *)

(** A throughput ratio so low that, at any rate up to [max_fps], the safe
    estimate of a pool of [n_clients] is [min_fps]. *)
Definition far_behind (n_clients : nat) (alpha : Q) : Prop :=
  (0 <= alpha)%Q /\ (inject_Z (Z.of_nat n_clients) * 30 * alpha < 18)%Q.

(** ** More invariants of a running job *)

(** The lock of a client whose task is inside a worker call is held, and no
    two tasks of one client are inside a worker call. *)
Definition one_call_per_client (j : job) : Prop :=
  (forall (i : nat) t, tasks j !! i = Some t -> t_state t = Running ->
     client_locks (manager j) !! client_idx t = Some true) /\
  (forall (i i' : nat) t t',
     tasks j !! i = Some t -> tasks j !! i' = Some t' ->
     t_state t = Running -> t_state t' = Running ->
     client_idx t = client_idx t' -> i = i').


(** Task [i] is bound to client [i mod n_clients] and to slice [i] of [cs]. *)
Definition round_robin (n_clients : nat) (use_a2e : bool) (cs : list (Q * Q))
    (ts : list task) : Prop :=
  length ts = length cs /\
  forall (i : nat) t, ts !! i = Some t ->
    client_idx t = (i mod n_clients)%nat /\
    cs !! i = Some (t_start t, t_end t) /\
    t_use_a2e t = use_a2e.

(** The call is the [generate_blendshapes] call of some slice of [cs], made
    on the client that the slice index selects. *)
Definition generates_slice (n_clients : nat) (use_a2e : bool)
    (cs : list (Q * Q)) (c : call) : Prop :=
  exists (i : nat) start end_ fps,
    cs !! i = Some (start, end_) /\
    c = generate_blendshapes (i mod n_clients) start end_ fps use_a2e.

(** The frame rate a call asks for, if it is a [generate_blendshapes] call. *)
Definition call_fps (c : call) : option Z :=
  match c with
  | generate_blendshapes _ _ _ fps _ => Some fps
  | _ => None
  end.

(** A stream ended by an exception stands at a task that failed with it. *)
Definition errored_at_failure (j : job) : Prop :=
  forall c, stream j = Errored c ->
    exists t, tasks j !! idx j = Some t /\ t_state t = Failed c.

(** ** Saving and removing the upload ([app/main.py]) *)

(** What [app/main.py] raises: a built-in exception, or FastAPI's
    [HTTPException] (a subclass of [Exception]) with its status code. *)
Inductive raised : Type :=
| builtin (c : exn_class)
| http_exception (status_code : Z).

(** Whether [except Exception] catches it. *)
Definition is_exception (e : raised) : bool :=
  match e with
  | builtin c => issubclass c Exception
  | http_exception _ => true
  end.

Inductive outcome (A : Type) : Type :=
| returns (a : A)
| raises (e : raised).
Arguments returns {A} a.
Arguments raises {A} e.

(** The bytes [b"RIFF"]. *)
Definition RIFF : list Byte.byte := [Byte.x52; Byte.x49; Byte.x46; Byte.x46].

(** [content.startswith(prefix)]. *)
Fixpoint startswith (content prefix : list Byte.byte) : bool :=
  match prefix, content with
  | [], _ => true
  | p :: prefix', c :: content' => Byte.eqb c p && startswith content' prefix'
  | _ :: _, [] => false
  end.

(** [decode_audio_content(content)], with [base64.b64decode] as an
    argument. *)
Definition decode_audio_content (b64decode : list Byte.byte -> result (list Byte.byte))
    (content : list Byte.byte) : outcome (list Byte.byte) :=
  if startswith content RIFF then returns content
  else
    match b64decode content with
    | Ok decoded => returns decoded
    | Raised c =>
        if issubclass c Exception then raises (http_exception 400)
        else raises (builtin c)
    end.

(** What happens to one upload: the outcome of [audio_file.read()], of
    opening the temporary file for writing and of writing to it, and how
    many bytes a failed write left in the file. *)
Record upload : Type := mkUpload {
  read_outcome : result (list Byte.byte);
  create_outcome : result unit;
  write_outcome : result unit;
  written : nat
}.

(** [f"{Config.TMP_DIR}/{secrets.token_hex(8)}.wav"]. *)
Definition temp_name (tmp_dir token : string) : string :=
  (tmp_dir ++ "/" ++ token ++ ".wav")%string.

(** [except Exception as e: raise HTTPException(500)] of
    [save_audio_file]. *)
Definition as_server_error {A} (e : raised) : outcome A :=
  if is_exception e then raises (http_exception 500) else raises e.

(** [save_audio_file(audio_file)] on the files [fs] of the temporary
    directory, [token] being the drawn hexadecimal token. *)
Definition save_audio_file (b64decode : list Byte.byte -> result (list Byte.byte))
    (tmp_dir token : string) (fs : gmap string (list Byte.byte)) (up : upload)
  : gmap string (list Byte.byte) * outcome string :=
  let audio_filename := temp_name tmp_dir token in
  match read_outcome up with
  | Raised c => (fs, as_server_error (builtin c))
  | Ok content =>
      match decode_audio_content b64decode content with
      | raises e => (fs, as_server_error e)
      | returns decoded_content =>
          match create_outcome up with
          | Raised c => (fs, as_server_error (builtin c))
          | Ok _ =>
              match write_outcome up with
              | Ok _ =>
                  (<[audio_filename := decoded_content]> fs,
                   returns audio_filename)
              | Raised c =>
                  (<[audio_filename := take (written up) decoded_content]> fs,
                   as_server_error (builtin c))
              end
          end
      end
  end.

(** [cleanup_temp_file(filename)]; [remove] is the outcome of
    [os.remove]. *)
Definition cleanup_temp_file (fs : gmap string (list Byte.byte))
    (filename : string) (remove : result unit)
  : gmap string (list Byte.byte) * outcome unit :=
  match fs !! filename with
  | Some _ =>
      match remove with
      | Ok _ => (delete filename fs, returns tt)
      | Raised c =>
          if issubclass c Exception then (fs, returns tt)
          else (fs, raises (builtin c))
      end
  | None => (fs, returns tt)
  end.

(** [process_audio_endpoint] with the files of the temporary directory: in
    its [except Exception] clause [audio_filename] is still [None], the
    only statement of the [try] block that raises being the call of
    [save_audio_file], so nothing is cleaned up there. *)
Definition process_audio_upload
    (b64decode : list Byte.byte -> result (list Byte.byte)) (tmp_dir token : string)
    (fs : gmap string (list Byte.byte)) (up : upload)
    (streaming_manager : option StreamingManager)
    (parse : string -> result EmotionWeights)
    (load_audio : string -> string * Q)
    (fps : option Z) (emotions : option string)
  : gmap string (list Byte.byte) * response :=
  match streaming_manager with
  | None => (fs, HTTPException 500)
  | Some self =>
      let parsed :=
        match emotions with
        | None | Some EmptyString => Ok None
        | Some text =>
            match parse text with
            | Ok weights => Ok (Some weights)
            | Raised c => Raised c
            end
        end in
      match parsed with
      | Raised c =>
          (fs,
           match handler_of emotions_clauses c with
           | Some _ => HTTPException 400
           | None => Unhandled c
           end)
      | Ok emotion_weights =>
          match save_audio_file b64decode tmp_dir token fs up with
          | (fs', returns audio_filename) =>
              (fs',
               StreamingResponse
                 (submit_job self (load_audio audio_filename) fps
                    emotion_weights false))
          | (fs', raises (http_exception status_code)) =>
              (fs', HTTPException status_code)
          | (fs', raises (builtin c)) => (fs', Unhandled c)
          end
      end
  end.


(** A base64 decoder that rejects every input. *)
Definition no_base64 (content : list Byte.byte) : result (list Byte.byte) :=
  Raised ValueError.

(** An upload read and written without incident. *)
Definition clean_upload (content : list Byte.byte) : upload :=
  mkUpload (Ok content) (Ok tt) (Ok tt) 0.

(** An upload whose write fails after [n] bytes. *)
Definition disk_full (content : list Byte.byte) (n : nat) : upload :=
  mkUpload (Ok content) (Ok tt) (Raised OSError) n.

(** * Properties *)
(** ** Lock files: proofs *)

(** An [OSError] is caught by the first clause of [_acquire_lock]. *)
Lemma oserror_first_clause c :
  issubclass c OSError = true -> handler_of acquire_clauses c = Some 0%nat.
Proof. destruct c; simpl; intros H; first [reflexivity | discriminate H]. Qed.

(** No exception class selects the second clause. *)
Lemma second_clause_dead c : handler_of acquire_clauses c <> Some 1%nat.
Proof. destruct c; vm_compute; discriminate. Qed.

Lemma handler_of_acquire_cases c :
  handler_of acquire_clauses c = Some 0%nat \/
  handler_of acquire_clauses c = None.
Proof. destruct c; vm_compute; auto. Qed.

(** The answer to the retry is never consulted. *)
Lemma acquire_lock_ignores_retry lf pr number os os2 os2' :
  _acquire_lock lf pr number os os2 = _acquire_lock lf pr number os os2'.
Proof.
  unfold _acquire_lock.
  destruct (try_lock lf pr number os) as [[lf1 pr1] [u | [c lock_file]]];
    [reflexivity |].
  destruct (handler_of_acquire_cases c) as [-> | ->]; reflexivity.
Qed.

(** The two ways [_acquire_lock] ends when the system raises [OSError]s only. *)
Lemma acquire_lock_cases lf pr number os os2 :
  os_errors_only os ->
  (granted os = true /\
   _acquire_lock lf pr number os os2 =
     (<[number := next_file pr]> lf,
      mkProcess ({[next_file pr]} ∪ opened pr) (S (next_file pr)),
      Ok true)) \/
  (granted os = false /\
   exists pr', _acquire_lock lf pr number os os2 = (lf, pr', Ok false) /\
     opened pr' ⊆ opened pr /\
     (open_outcome os = Ok tt -> next_file pr ∉ opened pr')).
Proof.
  intros [Hopen Hlock]. unfold _acquire_lock, try_lock, granted.
  destruct (open_outcome os) as [[] | c] eqn:Eo.
  - destruct (lock_outcome os) as [[] | c] eqn:El.
    + left. split; reflexivity.
    + right. split; [reflexivity |].
      rewrite (oserror_first_clause c (Hlock c eq_refl)). simpl.
      eexists; split; [reflexivity |]. simpl. split.
      * intros f Hf. apply elem_of_difference in Hf. destruct Hf as [Hf Hn].
        apply elem_of_union in Hf. destruct Hf as [Hf | Hf];
          [contradiction | exact Hf].
      * intros _ Hf. apply elem_of_difference in Hf. destruct Hf as [_ Hn].
        apply Hn, elem_of_singleton. reflexivity.
  - right. split; [reflexivity |].
    rewrite (oserror_first_clause c (Hopen c eq_refl)). simpl.
    eexists; split; [reflexivity |]. split; [reflexivity | discriminate].
Qed.

Lemma uniform_bounds r :
  (0 <= r)%Q -> (r < 1)%Q ->
  (1 # 10 <= uniform (1 # 10) (1 # 2) r)%Q /\
  (uniform (1 # 10) (1 # 2) r <= 1 # 2)%Q.
Proof. intros H0 H1. unfold uniform. split; lra. Qed.

Lemma sleeps_drawn_cons w k d p tried :
  d = uniform (1 # 10) (1 # 2) (sample w k) ->
  sleeps_drawn w (S k) tried -> sleeps_drawn w k ((d, p) :: tried).
Proof.
  intros Hd Ht [| i] d' p' Hi; simpl in Hi.
  - injection Hi as <- <-. now rewrite Nat.add_0_r.
  - rewrite Nat.add_succ_r. exact (Ht i d' p' Hi).
Qed.

Lemma all_refused_cons w k d p tried :
  granted (answer w k p) = false ->
  all_refused w (S k) tried -> all_refused w k ((d, p) :: tried).
Proof.
  intros Hd Ht [| i] d' p' Hi; simpl in Hi.
  - injection Hi as <- <-. now rewrite Nat.add_0_r.
  - rewrite Nat.add_succ_r. exact (Ht i d' p' Hi).
Qed.

Lemma sleeps_drawn_app w k t1 t2 :
  sleeps_drawn w k t1 -> sleeps_drawn w (k + length t1) t2 ->
  sleeps_drawn w k (t1 ++ t2).
Proof.
  intros H1 H2 i d p Hi.
  destruct (lookup_app_Some t1 t2 i (d, p)) as [Hcases _].
  destruct (Hcases Hi) as [Hl | [Hge Hr]].
  - exact (H1 i d p Hl).
  - specialize (H2 _ d p Hr).
    replace (k + i)%nat with (k + length t1 + (i - length t1))%nat by lia.
    exact H2.
Qed.

Lemma all_refused_app w k t1 t2 :
  all_refused w k t1 -> all_refused w (k + length t1) t2 ->
  all_refused w k (t1 ++ t2).
Proof.
  intros H1 H2 i d p Hi.
  destruct (lookup_app_Some t1 t2 i (d, p)) as [Hcases _].
  destruct (Hcases Hi) as [Hl | [Hge Hr]].
  - exact (H1 i d p Hl).
  - specialize (H2 _ d p Hr).
    replace (k + i)%nat with (k + length t1 + (i - length t1))%nat by lia.
    exact H2.
Qed.

(** What one sweep over [ports] does. *)
Lemma sweep_spec w (Hos : forall k p, os_errors_only (answer w k p)) ports :
  forall st st' r, sweep w ports st = (st', r) ->
  exists tried,
    a_log st' = a_log st ++ tried /\
    a_tries st' = (a_tries st + length tried)%nat /\
    sleeps_drawn w (a_tries st) tried /\
    match r with
    | None =>
        map snd tried = ports /\ all_refused w (a_tries st) tried
    | Some (inl port) =>
        (exists rest, map snd tried ++ rest = ports) /\
        last (map snd tried) = Some port /\
        In port ports /\
        granted (answer w (a_tries st' - 1) port) = true /\
        exists f, a_locked st' !! port = Some f /\
                  f ∈ opened (a_process st')
    | Some (inr c) => False
    end.
Proof.
  induction ports as [| port rest IH]; intros st st' r Hs; simpl in Hs.
  - injection Hs as <- <-. exists []. rewrite app_nil_r, Nat.add_0_r.
    repeat split; try reflexivity; intros i d p Hi; discriminate Hi.
  - set (k := a_tries st) in *.
    set (delay := uniform (1 # 10) (1 # 2) (sample w k)) in *.
    destruct (acquire_lock_cases (a_locked st) (a_process st) port
                (answer w k port) (answer2 w k port) (Hos k port))
      as [[Hg Heq] | [Hg [pr' [Heq _]]]]; rewrite Heq in Hs.
    + injection Hs as <- <-. exists [(delay, port)]. simpl.
      repeat split.
      * rewrite Nat.add_1_r. reflexivity.
      * apply sleeps_drawn_cons; [reflexivity |].
        intros i d p Hi; discriminate Hi.
      * exists rest. reflexivity.
      * left. reflexivity.
      * rewrite Nat.sub_0_r. exact Hg.
      * exists (next_file (a_process st)). split.
        -- apply lookup_insert_eq.
        -- apply elem_of_union_l, elem_of_singleton. reflexivity.
    + destruct (IH _ _ _ Hs) as [tried [Hlog [Htries [Hsl Hr]]]].
      simpl in Hlog, Htries, Hsl, Hr.
      exists ((delay, port) :: tried). simpl.
      split; [rewrite Hlog, <- app_assoc; reflexivity |].
      split; [rewrite Htries; lia |].
      split; [apply sleeps_drawn_cons; [reflexivity | exact Hsl] |].
      destruct r as [[p | c] |].
      * destruct Hr as [[rest' Hpre] [Hlast [Hin [Hgr Hf]]]].
        split; [exists rest'; rewrite <- Hpre; reflexivity |].
        split; [| split; [right; exact Hin | split; [exact Hgr | exact Hf]]].
        destruct tried as [| x tried']; [discriminate Hlast | exact Hlast].
      * exact Hr.
      * destruct Hr as [Hports Href]. split; [now rewrite Hports |].
        apply all_refused_cons; assumption.
Qed.

Lemma last_app_cons {A} (l1 l2 : list A) x :
  last l2 = Some x -> last (l1 ++ l2) = Some x.
Proof.
  intros H. induction l1 as [| a l1 IH]; [exact H |].
  simpl. destruct (l1 ++ l2) eqn:E; [| exact IH].
  destruct l1; simpl in E; [subst l2 |]; discriminate.
Qed.

(** What [rounds] sweeps do. *)
Lemma sweeps_spec w (Hos : forall k p, os_errors_only (answer w k p)) ports
    rounds :
  forall st st' r, sweeps w ports rounds st = (st', r) ->
  exists tried,
    a_log st' = a_log st ++ tried /\
    a_tries st' = (a_tries st + length tried)%nat /\
    sleeps_drawn w (a_tries st) tried /\
    match r with
    | Ok port =>
        (exists rest,
           map snd tried ++ rest = concat (replicate rounds ports)) /\
        last (map snd tried) = Some port /\
        In port ports /\
        granted (answer w (a_tries st' - 1) port) = true /\
        exists f, a_locked st' !! port = Some f /\
                  f ∈ opened (a_process st')
    | Raised c =>
        c = RuntimeError /\
        map snd tried = concat (replicate rounds ports) /\
        all_refused w (a_tries st) tried
    end.
Proof.
  induction rounds as [| rounds IH]; intros st st' r Hs; simpl in Hs.
  - injection Hs as <- <-. exists []. rewrite app_nil_r, Nat.add_0_r.
    repeat split; try reflexivity; intros i d p Hi; discriminate Hi.
  - destruct (sweep w ports st) as [st1 r1] eqn:Hsw.
    destruct (sweep_spec w Hos ports _ _ _ Hsw)
      as [t1 [Hlog1 [Htries1 [Hsl1 Hr1]]]].
    destruct r1 as [[port | c] |].
    + injection Hs as <- <-. exists t1.
      repeat split; try assumption; try tauto.
      destruct Hr1 as [[rest Hpre] _].
      exists (rest ++ concat (replicate rounds ports)).
      simpl. rewrite <- Hpre, <- app_assoc. reflexivity.
    + contradiction.
    + destruct Hr1 as [Hports Href1].
      destruct (IH _ _ _ Hs) as [t2 [Hlog2 [Htries2 [Hsl2 Hr2]]]].
      exists (t1 ++ t2).
      split; [rewrite Hlog2, Hlog1, <- app_assoc; reflexivity |].
      split; [rewrite Htries2, Htries1, length_app; lia |].
      rewrite Htries1 in Hsl2.
      split; [apply sleeps_drawn_app; assumption |].
      rewrite map_app, Hports. simpl.
      destruct r as [port | c].
      * destruct Hr2 as [[rest Hpre] [Hlast Hrest]].
        split; [exists rest; rewrite <- Hpre, <- app_assoc; reflexivity |].
        split; [apply last_app_cons; exact Hlast | exact Hrest].
      * destruct Hr2 as [Hc [Hall Href2]].
        split; [exact Hc |]. split; [rewrite Hall; reflexivity |].
        rewrite Htries1 in Href2. apply all_refused_app; assumption.
Qed.

Lemma length_concat_replicate {A} n (l : list A) :
  length (concat (replicate n l)) = (n * length l)%nat.
Proof.
  induction n as [| n IH]; [reflexivity |].
  simpl. rewrite length_app, IH. reflexivity.
Qed.

(** C8: [_next_port] tries the ports of the configured range in order, one
    full sweep after the other for at most 10 sweeps, sleeping a drawn
    0.1-0.5 before each non-blocking [_acquire_lock]; when every try was
    refused it raises [RuntimeError] after all [10 * len(available_ports)]
    tries, and when it returns a port the last try was on that port, the
    system granted its lock and the open lock file is recorded in
    [locked_files]. *)
Theorem next_port_bounded_sweeps w ports st st' r :
  (forall k, (0 <= sample w k)%Q /\ (sample w k < 1)%Q) ->
  (forall k p, os_errors_only (answer w k p)) ->
  _next_port w ports st = (st', r) ->
  exists tried,
    a_log st' = a_log st ++ tried /\
    a_tries st' = (a_tries st + length tried)%nat /\
    (length tried <= 10 * length ports)%nat /\
    sleeps_drawn w (a_tries st) tried /\
    Forall (fun t => (1 # 10 <= fst t)%Q /\ (fst t <= 1 # 2)%Q) tried /\
    match r with
    | Ok port =>
        (exists rest, map snd tried ++ rest = concat (replicate 10 ports)) /\
        last (map snd tried) = Some port /\
        In port ports /\
        granted (answer w (a_tries st' - 1) port) = true /\
        exists f, a_locked st' !! port = Some f /\
                  f ∈ opened (a_process st')
    | Raised c =>
        c = RuntimeError /\
        map snd tried = concat (replicate 10 ports) /\
        all_refused w (a_tries st) tried
    end.
Proof.
  intros Hsample Hos Hnp. unfold _next_port in Hnp.
  destruct (sweeps_spec w Hos ports 10 _ _ _ Hnp)
    as [tried [Hlog [Htries [Hsl Hr]]]].
  exists tried.
  split; [exact Hlog |]. split; [exact Htries |].
  assert (Hlen : (length (map snd tried) <= 10 * length ports)%nat).
  { rewrite <- (length_concat_replicate 10 ports).
    destruct r as [port | c].
    - destruct Hr as [[rest <-] _]. rewrite length_app. lia.
    - destruct Hr as [_ [<- _]]. lia. }
  rewrite length_map in Hlen.
  split; [exact Hlen |]. split; [exact Hsl |]. split; [| exact Hr].
  apply Forall_forall. intros [d p] Hin.
  apply (proj1 (list_elem_of_lookup tried (d, p))) in Hin.
  destruct Hin as [i Hi].
  rewrite (Hsl i d p Hi). simpl.
  destruct (Hsample (a_tries st + i)%nat) as [H0 H1].
  apply uniform_bounds; assumption.
Qed.

Lemma contended_os_errors_only : os_errors_only contended.
Proof.
  split; intros c H; simpl in H; [discriminate H |].
  injection H as <-. reflexivity.
Defined.

Lemma unlocked_os_errors_only : os_errors_only unlocked.
Proof. split; intros c H; discriminate H. Defined.

Lemma next_port_bounded_sweeps_witness :
  snd (_next_port busy_then_free [8190; 8191] fresh_alloc) = Ok 8191 /\
  exists tried,
    a_log (fst (_next_port busy_then_free [8190; 8191] fresh_alloc)) =
      a_log fresh_alloc ++ tried /\
    length tried = 4%nat.
Proof.
  split; [vm_compute; reflexivity |].
  destruct (next_port_bounded_sweeps busy_then_free [8190; 8191] fresh_alloc
              (fst (_next_port busy_then_free [8190; 8191] fresh_alloc))
              (snd (_next_port busy_then_free [8190; 8191] fresh_alloc)))
    as [tried [Hlog [Htries _]]].
  - intros k. simpl. split; [discriminate | reflexivity].
  - intros k p. simpl. destruct (k <? 3)%nat.
    + exact contended_os_errors_only.
    + exact unlocked_os_errors_only.
  - apply surjective_pairing.
  - exists tried. split; [exact Hlog |].
    change (a_tries fresh_alloc) with 0%nat in Htries.
    replace (a_tries (fst (_next_port busy_then_free [8190; 8191] fresh_alloc)))
      with 4%nat in Htries by (vm_compute; reflexivity).
    symmetry. exact Htries.
Defined.

(** C10: for every port number, whatever [OSError] the system raises,
    [_acquire_lock] returns: [True] exactly when the lock was granted, with
    the open lock file stored in [locked_files]; otherwise [False] with
    [locked_files] unchanged and the file it opened closed again.  No
    exception class selects the [except FileNotFoundError] clause, since
    [FileNotFoundError] is an [OSError] and the clause before it catches
    every [OSError]; so the answer to the retry is never consulted. *)
Theorem acquire_lock_total lf pr number os os2 :
  os_errors_only os ->
  (exists lf' pr',
     _acquire_lock lf pr number os os2 = (lf', pr', Ok (granted os)) /\
     if granted os
     then exists f, lf' !! number = Some f /\ f ∈ opened pr'
     else lf' = lf /\ opened pr' ⊆ opened pr /\
          (open_outcome os = Ok tt -> next_file pr ∉ opened pr')) /\
  issubclass FileNotFoundError OSError = true /\
  (forall c, handler_of acquire_clauses c <> Some 1%nat) /\
  (forall os2',
     _acquire_lock lf pr number os os2' = _acquire_lock lf pr number os os2).
Proof.
  intros Hos. split; [| split; [reflexivity | split]].
  - destruct (acquire_lock_cases lf pr number os os2 Hos)
      as [[Hg Heq] | [Hg [pr' [Heq [Hsub Hclosed]]]]]; rewrite Hg.
    + eexists _, _. split; [exact Heq |].
      exists (next_file pr). split; [apply lookup_insert_eq |].
      apply elem_of_union_l, elem_of_singleton. reflexivity.
    + exists lf, pr'. auto.
  - exact second_clause_dead.
  - intros os2'. apply acquire_lock_ignores_retry.
Qed.

Lemma acquire_lock_total_witness :
  os_errors_only contended /\
  exists lf' pr',
    _acquire_lock ∅ (mkProcess ∅ 0%nat) 8190 contended unlocked =
      (lf', pr', Ok false) /\
    lf' = ∅ /\ 0%nat ∉ opened pr'.
Proof.
  split; [exact contended_os_errors_only |].
  destruct (acquire_lock_total ∅ (mkProcess ∅ 0%nat) 8190 contended unlocked
              contended_os_errors_only)
    as [[lf' [pr' [Heq Hcase]]] _].
  simpl in Hcase. destruct Hcase as [Hlf [_ Hclosed]].
  exists lf', pr'. split; [exact Heq |]. split; [exact Hlf |].
  apply Hclosed. reflexivity.
Defined.

(** ** Rate control: proofs *)

Lemma safe_fps_ge_min n fps alpha : min_fps <= safe_fps n fps alpha.
Proof. unfold safe_fps. apply Z.le_max_l. Qed.

Lemma adjust_fps_le_max n fps alpha : adjust_fps n fps alpha <= max_fps.
Proof. unfold adjust_fps. apply Z.le_min_l. Qed.

Lemma adjust_fps_ge_min n fps alpha :
  min_fps <= fps -> min_fps <= adjust_fps n fps alpha.
Proof.
  intros H. pose proof (safe_fps_ge_min n fps alpha) as Hs.
  unfold adjust_fps, min_fps, max_fps in *.
  apply Z.min_glb; [lia |].
  apply Z.div_le_lower_bound; lia.
Qed.

Lemma adjust_fps_in_bounds n fps alpha :
  min_fps <= fps -> in_bounds (adjust_fps n fps alpha).
Proof.
  intros H. split; [apply adjust_fps_ge_min; exact H | apply adjust_fps_le_max].
Qed.

(** With at least two clients and a slice served at least as fast as real
    time, the safe estimate is not below the current rate. *)
Lemma safe_fps_ge_current n fps alpha :
  (2 <= n)%nat -> min_fps <= fps -> (1 <= alpha)%Q ->
  fps <= safe_fps n fps alpha.
Proof.
  intros Hn Hfps Ha. unfold safe_fps, min_fps in *.
  etransitivity; [| apply Z.le_max_r].
  rewrite <- (Qfloor_Z fps) at 1. apply Qfloor_resp_le.
  assert (HN : (2 <= inject_Z (Z.of_nat n))%Q)
    by (change (inject_Z 2 <= inject_Z (Z.of_nat n))%Q;
        rewrite <- Zle_Qle; lia).
  assert (HF : (10 <= inject_Z fps)%Q)
    by (change (inject_Z 10 <= inject_Z fps)%Q;
        rewrite <- Zle_Qle; exact Hfps).
  set (N := inject_Z (Z.of_nat n)) in *. set (F := inject_Z fps) in *.
  assert (H1 : (2 * F <= N * F)%Q) by nra.
  assert (H2 : (N * F <= N * F * alpha)%Q) by nra.
  lra.
Qed.

Lemma adjust_fps_ge_current n fps alpha :
  (2 <= n)%nat -> in_bounds fps -> (1 <= alpha)%Q ->
  fps <= adjust_fps n fps alpha.
Proof.
  intros Hn [Hlo Hhi] Ha.
  pose proof (safe_fps_ge_current n fps alpha Hn Hlo Ha) as Hs.
  unfold adjust_fps. apply Z.min_glb; [exact Hhi |].
  apply Z.div_le_lower_bound; lia.
Qed.

Lemma fps_trace_in_bounds n alphas :
  forall fps, in_bounds fps -> Forall in_bounds (fps_trace n fps alphas).
Proof.
  induction alphas as [| alpha rest IH]; intros fps Hb; simpl.
  - constructor; [exact Hb | constructor].
  - constructor; [exact Hb |].
    apply IH, adjust_fps_in_bounds, Hb.
Qed.

Lemma fps_trace_head n fps alphas :
  exists rest, fps_trace n fps alphas = fps :: rest.
Proof. destruct alphas; simpl; eauto. Qed.

Lemma fps_trace_sorted n alphas :
  (2 <= n)%nat -> Forall (fun alpha => (1 <= alpha)%Q) alphas ->
  forall fps, in_bounds fps -> Sorted Z.le (fps_trace n fps alphas).
Proof.
  intros Hn Hall. induction Hall as [| alpha rest Ha Hrest IH];
    intros fps Hb; simpl.
  - constructor; constructor.
  - constructor.
    + apply IH, adjust_fps_in_bounds, Hb.
    + destruct (fps_trace_head n (adjust_fps n fps alpha) rest) as [tl ->].
      constructor. apply adjust_fps_ge_current; assumption.
Qed.




Lemma throughput_nonzero start end_ elapsed_time :
  ~ (elapsed_time == 0)%Q ->
  throughput start end_ elapsed_time = Ok ((end_ - start) / elapsed_time)%Q.
Proof.
  intros Hne. unfold throughput.
  destruct (Qeq_bool elapsed_time 0) eqn:E; [| reflexivity].
  apply Qeq_bool_iff in E. contradiction.
Qed.





(** C5: from a rate within [[min_fps, max_fps]] and with a pool of at least
    two clients, slices all served with a throughput ratio of at least 1 make
    the successive values of [current_fps] non-decreasing and never above
    [max_fps]; with ratios all below 1 (whatever the pool size) the rate
    never drops below [min_fps]. *)
Theorem rate_convergence n fps alphas :
  in_bounds fps ->
  ((2 <= n)%nat -> Forall (fun alpha => (1 <= alpha)%Q) alphas ->
   Sorted Z.le (fps_trace n fps alphas) /\
   Forall (fun f => f <= max_fps) (fps_trace n fps alphas)) /\
  (Forall (fun alpha => (alpha < 1)%Q) alphas ->
   Forall (fun f => min_fps <= f) (fps_trace n fps alphas)).
Proof.
  intros Hb.
  pose proof (fps_trace_in_bounds n alphas fps Hb) as Hall.
  split.
  - intros Hn Hfast. split; [apply fps_trace_sorted; assumption |].
    eapply Forall_impl; [exact Hall |]. intros f [_ Hf]. exact Hf.
  - intros _. eapply Forall_impl; [exact Hall |]. intros f [Hf _]. exact Hf.
Qed.

Lemma rate_convergence_witness :
  in_bounds 10 /\
  fps_trace 2 10 [1; 3 # 2]%Q = [10; 11; 18] /\
  Sorted Z.le (fps_trace 2 10 [1; 3 # 2]%Q).
Proof.
  assert (Hb : in_bounds 10) by (unfold in_bounds, min_fps, max_fps; lia).
  split; [exact Hb |]. split; [reflexivity |].
  destruct (rate_convergence 2 10 [1; 3 # 2]%Q Hb) as [Hfast _].
  apply Hfast; [lia |].
  repeat constructor; discriminate.
Defined.

(** A pool of one client served exactly in real time lowers the rate:
    30 becomes 26. *)
Lemma single_client_rate_drops :
  in_bounds 30 /\ Forall (fun alpha => (1 <= alpha)%Q) [1%Q] /\
  fps_trace 1 30 [1%Q] = [30; 26] /\ 26 < 30.
Proof.
  split; [unfold in_bounds, min_fps, max_fps; lia |].
  split; [repeat constructor; discriminate |].
  split; [reflexivity | lia].
Qed.

(** ** Slices: proofs *)

Section Slices.
Local Open Scope Q_scope.





Lemma div_chunk_size d : d / chunk_size == d * (10 # 3).
Proof. unfold chunk_size. field. Qed.
















End Slices.

(** ** Job scheduling: proofs *)

Ltac step_inv H :=
  unfold step in H; repeat case_match; try discriminate H;
  injection H as H; subst.

Lemma run_app j evs1 evs2 :
  run j (evs1 ++ evs2) =
  match run j evs1 with Some j1 => run j1 evs2 | None => None end.
Proof.
  revert j. induction evs1 as [| e evs1 IH]; intros j; simpl; [reflexivity |].
  destruct (step j e); [apply IH | reflexivity].
Qed.

(** A step changes [current_fps] by a rate update or not at all. *)
Lemma step_fps j e j' :
  step j e = Some j' ->
  current_fps (manager j') = current_fps (manager j) \/
  exists alpha,
    current_fps (manager j') =
      adjust_fps (length (a2f_clients (manager j)))
        (current_fps (manager j)) alpha.
Proof.
  intros H. destruct e; step_inv H; simpl; eauto.
Qed.

Lemma step_in_bounds j e j' :
  step j e = Some j' ->
  in_bounds (current_fps (manager j)) -> in_bounds (current_fps (manager j')).
Proof.
  intros H Hb. destruct (step_fps j e j' H) as [-> | [alpha ->]];
    [exact Hb |].
  apply adjust_fps_in_bounds, Hb.
Qed.

Lemma run_in_bounds evs :
  forall j j', run j evs = Some j' ->
  in_bounds (current_fps (manager j)) -> in_bounds (current_fps (manager j')).
Proof.
  induction evs as [| e evs IH]; intros j j' H Hb; simpl in H.
  - injection H as <-. exact Hb.
  - destruct (step j e) as [j1 |] eqn:E; [| discriminate H].
    eapply IH; [exact H |]. eapply step_in_bounds; eassumption.
Qed.

Lemma submit_job_fps self loaded fps emotions use_a2e j :
  submit_job self loaded fps emotions use_a2e = Ok j ->
  current_fps (manager j) =
    match fps with None => default_fps | Some f => f end.
Proof.
  unfold submit_job. destruct loaded as [audio_path duration]. simpl.
  intros H. repeat case_match; try discriminate H; injection H as <-;
    reflexivity.
Qed.

Lemma bind_clients_ok w ports n :
  forall st st' clients,
    bind_clients w ports n st = (st', Ok clients) -> length clients = n.
Proof.
  induction n as [| n IH]; intros st st' clients H; simpl in H.
  - injection H as _ <-. reflexivity.
  - repeat case_match; try discriminate H. injection H as _ <-.
    simpl. f_equal. eapply IH. eassumption.
Qed.

(** C2: [current_fps] is 30, within [[min_fps, max_fps] = [10, 30]], after
    construction.  [submit_job] sets it to the requested fps, or to the
    default 10 when none is given, as it is: it is then within bounds exactly
    when no fps was requested or the requested one is within bounds.  Every
    rate update leaves it at most [max_fps], and at least [min_fps] when it
    was at least [min_fps] before; so a job that starts within bounds stays
    within bounds at every step. *)
Theorem current_fps_bounds :
  (forall w pr default_workers clients_per_worker st self,
     __init__ w pr default_workers clients_per_worker = (st, Ok self) ->
     current_fps self = 30 /\ in_bounds (current_fps self)) /\
  (forall self loaded fps emotions use_a2e j,
     submit_job self loaded fps emotions use_a2e = Ok j ->
     current_fps (manager j) =
       match fps with None => default_fps | Some f => f end /\
     (in_bounds (current_fps (manager j)) <->
      match fps with None => True | Some f => in_bounds f end)) /\
  (forall n fps alpha,
     adjust_fps n fps alpha <= max_fps /\
     (min_fps <= fps -> in_bounds (adjust_fps n fps alpha))) /\
  (forall j evs j',
     in_bounds (current_fps (manager j)) -> run j evs = Some j' ->
     in_bounds (current_fps (manager j'))).
Proof.
  split; [| split; [| split]].
  - intros w pr dw cpw st self H. unfold __init__ in H.
    repeat case_match; try discriminate H. injection H as _ <-. simpl.
    split; [reflexivity |]. unfold in_bounds, min_fps, max_fps. lia.
  - intros self loaded fps emotions use_a2e j H.
    rewrite (submit_job_fps _ _ _ _ _ _ H). split; [reflexivity |].
    destruct fps as [f |]; [reflexivity |].
    unfold in_bounds, default_fps, min_fps, max_fps. split; [tauto | lia].
  - intros n fps alpha.
    split; [apply adjust_fps_le_max | apply adjust_fps_in_bounds].
  - intros j evs j' Hb H. eapply run_in_bounds; eassumption.
Qed.

Lemma current_fps_bounds_witness :
  exists j,
    submit_job idle_pair ("a.wav"%string, 1%Q) (Some 20) None false = Ok j /\
    in_bounds (current_fps (manager j)).
Proof.
  destruct current_fps_bounds as (_ & Hsub & _).
  eexists. split; [vm_compute; reflexivity |].
  match goal with
  | |- in_bounds (current_fps (manager ?j)) =>
      destruct (Hsub idle_pair ("a.wav"%string, 1%Q) (Some 20) None false j
                  eq_refl) as [_ Hiff]
  end.
  apply Hiff. unfold in_bounds, min_fps, max_fps. lia.
Defined.

(** A request for 60 fps leaves [current_fps] at 60, above [max_fps]. *)
Lemma requested_fps_not_clamped :
  exists j,
    submit_job idle_pair ("a.wav"%string, 1%Q) (Some 60) None false = Ok j /\
    current_fps (manager j) = 60 /\
    ~ in_bounds (current_fps (manager j)).
Proof.
  eexists. split; [reflexivity |]. split; [reflexivity |].
  simpl. unfold in_bounds, max_fps. lia.
Qed.

(** *** What each event does *)

Lemma step_acquire_inv j i j' :
  step j (Acquire i) = Some j' ->
  exists t,
    tasks j !! i = Some t /\ t_state t = Pending /\
    client_locks (manager j) !! client_idx t = Some false /\
    client_locks (manager j') =
      <[client_idx t := true]> (client_locks (manager j)) /\
    tasks j' = <[i := set_state t Running]> (tasks j) /\
    calls j' =
      calls j ++
      [generate_blendshapes (client_idx t) (t_start t) (t_end t)
         (current_fps (manager j)) (t_use_a2e t)] /\
    idx j' = idx j /\ emitted j' = emitted j /\ stream j' = stream j.
Proof.
  intros H. step_inv H. eexists. repeat split; eauto.
Qed.

(** A worker call that ends, by [Return] or by [Throw], releases the lock of
    its client and leaves the task finished. *)
Lemma step_finish_inv j e i j' :
  (exists payload elapsed_time, e = Return i payload elapsed_time) \/
  (exists c, e = Throw i c) ->
  step j e = Some j' ->
  exists t s,
    tasks j !! i = Some t /\ t_state t = Running /\
    finished (set_state t s) = true /\
    client_locks (manager j') =
      <[client_idx t := false]> (client_locks (manager j)) /\
    tasks j' = <[i := set_state t s]> (tasks j) /\
    calls j' = calls j /\
    idx j' = idx j /\ emitted j' = emitted j /\ stream j' = stream j.
Proof.
  intros [[payload [elapsed_time ->]] | [c ->]] H; step_inv H;
    eexists _, _; repeat split; eauto.
Qed.

Lemma step_consumer_inv j e j' :
  e = Next \/ e = Disconnect ->
  step j e = Some j' ->
  manager j' = manager j /\ tasks j' = tasks j /\ calls j' = calls j.
Proof. intros [-> | ->] H; step_inv H; auto. Qed.

Lemma event_cases e :
  (exists i, e = Acquire i) \/
  (exists i, (exists payload elapsed_time, e = Return i payload elapsed_time)
             \/ (exists c, e = Throw i c)) \/
  (e = Next \/ e = Disconnect).
Proof. destruct e; eauto 8. Qed.

Lemma step_length_tasks j e j' :
  step j e = Some j' -> length (tasks j') = length (tasks j).
Proof.
  intros H. destruct (event_cases e) as [[i ->] | [[i He] | He]].
  - destruct (step_acquire_inv _ _ _ H) as [t (_ & _ & _ & _ & -> & _)].
    apply length_insert.
  - destruct (step_finish_inv _ _ _ _ He H) as [t [s (_ & _ & _ & _ & -> & _)]].
    apply length_insert.
  - destruct (step_consumer_inv _ _ _ He H) as (_ & -> & _). reflexivity.
Qed.

(** *** The locks stay owned *)

Lemma step_locks_owned j e j' :
  step j e = Some j' -> locks_owned j -> locks_owned j'.
Proof.
  intros H [Hidx Hheld].
  destruct (event_cases e) as [[i ->] | [[i He] | He]].
  - destruct (step_acquire_inv _ _ _ H)
      as [t (Ht & Hp & Hfree & Hl & Hts & _)].
    split.
    + intros i' t' Hi'. rewrite Hl, length_insert. rewrite Hts in Hi'.
      apply list_lookup_insert_Some in Hi'.
      destruct Hi' as [(_ & <- & _) | [_ Hold]];
        [exact (Hidx i t Ht) | exact (Hidx i' t' Hold)].
    + intros c Hc. rewrite Hl in Hc. rewrite Hts.
      destruct (decide (c = client_idx t)) as [-> | Hne].
      * exists i, (set_state t Running). split; [| auto].
        apply list_lookup_insert_eq. eapply lookup_lt_Some, Ht.
      * rewrite list_lookup_insert_ne in Hc by auto.
        destruct (Hheld c Hc) as [i0 [t0 (Ht0 & Hc0 & Hr0)]].
        exists i0, t0. split; [| auto].
        rewrite list_lookup_insert_ne; [exact Ht0 |].
        intros <-. rewrite Ht in Ht0. injection Ht0 as <-. congruence.
  - destruct (step_finish_inv _ _ _ _ He H)
      as [t [s (Ht & Hr & _ & Hl & Hts & _)]].
    split.
    + intros i' t' Hi'. rewrite Hl, length_insert. rewrite Hts in Hi'.
      apply list_lookup_insert_Some in Hi'.
      destruct Hi' as [(_ & <- & _) | [_ Hold]];
        [exact (Hidx i t Ht) | exact (Hidx i' t' Hold)].
    + intros c Hc. rewrite Hl in Hc. rewrite Hts.
      apply list_lookup_insert_Some in Hc.
      destruct Hc as [(_ & Hbad & _) | [Hne Hc]]; [discriminate Hbad |].
      destruct (Hheld c Hc) as [i0 [t0 (Ht0 & Hc0 & Hr0)]].
      exists i0, t0. split; [| auto].
      rewrite list_lookup_insert_ne; [exact Ht0 |].
      intros <-. rewrite Ht in Ht0. injection Ht0 as <-. congruence.
  - destruct (step_consumer_inv _ _ _ He H) as (Hm & Hts & _).
    unfold locks_owned. rewrite Hm, Hts. auto.
Qed.

Lemma run_locks_owned evs :
  forall j j', run j evs = Some j' -> locks_owned j -> locks_owned j'.
Proof.
  induction evs as [| e evs IH]; intros j j' H Hinv; simpl in H.
  - injection H as <-. exact Hinv.
  - destruct (step j e) as [j1 |] eqn:E; [| discriminate H].
    eapply IH; [exact H |]. eapply step_locks_owned; eassumption.
Qed.

(** With no task inside a worker call every lock is free. *)
Lemma locks_free_when_quiet j (c : nat) :
  locks_owned j ->
  (forall (i : nat) t, tasks j !! i = Some t -> t_state t <> Running) ->
  (c < length (client_locks (manager j)))%nat ->
  client_locks (manager j) !! c = Some false.
Proof.
  intros [_ Hheld] Hquiet Hc.
  destruct (lookup_lt_is_Some_2 _ _ Hc) as [[|] Hb]; [| exact Hb].
  destruct (Hheld c Hb) as [i [t (Ht & _ & Hr)]].
  destruct (Hquiet i t Ht Hr).
Qed.

(** *** The drain is in slice order *)

(** A step on a task that is not [Done] keeps the [Done] tasks. *)
Lemma done_kept (ts : list task) (i k : nat) t t' u payload :
  ts !! i = Some t -> t_state t <> Done payload ->
  ts !! k = Some u -> t_state u = Done payload ->
  <[i := t']> ts !! k = Some u.
Proof.
  intros Ht Hnd Hu Hd. rewrite list_lookup_insert_ne; [exact Hu |].
  intros <-. rewrite Ht in Hu. injection Hu as <-. contradiction.
Qed.

Lemma step_drained j e j' :
  step j e = Some j' -> drained_in_order j -> drained_in_order j'.
Proof.
  intros H (Hlen & Hle & Hrec & Hex).
  destruct (event_cases e) as [[i ->] | [[i He] | [-> | ->]]].
  - destruct (step_acquire_inv _ _ _ H)
      as [t (Ht & Hp & _ & _ & Hts & _ & Hi & Hem & Hst)].
    unfold drained_in_order. rewrite Hi, Hem, Hst, Hts, length_insert.
    split; [exact Hlen |]. split; [exact Hle |]. split; [| exact Hex].
    intros k r Hk. destruct (Hrec k r Hk) as [Hfst [u [Hu Hd]]].
    split; [exact Hfst |]. exists u. split; [| exact Hd].
    eapply done_kept; eauto. congruence.
  - destruct (step_finish_inv _ _ _ _ He H)
      as [t [s (Ht & Hr & _ & _ & Hts & _ & Hi & Hem & Hst)]].
    unfold drained_in_order. rewrite Hi, Hem, Hst, Hts, length_insert.
    split; [exact Hlen |]. split; [exact Hle |]. split; [| exact Hex].
    intros k r Hk. destruct (Hrec k r Hk) as [Hfst [u [Hu Hd]]].
    split; [exact Hfst |]. exists u. split; [| exact Hd].
    eapply done_kept; eauto. congruence.
  - unfold step in H. destruct (stream j) eqn:Hs; try discriminate H.
    destruct (tasks j !! idx j) as [t |] eqn:Ht.
    + destruct (t_state t) as [| | payload | c] eqn:Hst;
        try discriminate H; injection H as <-;
        unfold drained_in_order; simpl.
      * split; [rewrite length_app, Hlen; simpl; lia |].
        split; [apply lookup_lt_Some in Ht; lia |].
        split; [| discriminate].
        intros k r Hk. apply lookup_app_Some in Hk.
        destruct Hk as [Hk | [Hge Hk]]; [exact (Hrec k r Hk) |].
        rewrite Hlen in Hge, Hk.
        destruct (k - idx j)%nat as [| m] eqn:Hm; [| discriminate Hk].
        simpl in Hk. assert (Hr : r = (idx j, payload)) by congruence.
        subst r. simpl.
        assert (k = idx j) as -> by lia. eauto.
      * split; [exact Hlen |]. split; [exact Hle |].
        split; [exact Hrec | discriminate].
    + injection H as <-. unfold drained_in_order; simpl.
      split; [exact Hlen |]. split; [exact Hle |]. split; [exact Hrec |].
      intros _. apply lookup_ge_None in Ht. lia.
  - unfold step in H. destruct (stream j) eqn:Hs; try discriminate H.
    destruct (idx j) eqn:Hi; try discriminate H. injection H as <-.
    unfold drained_in_order; simpl.
    split; [exact Hlen |]. split; [exact Hle |].
    split; [exact Hrec | discriminate].
Qed.

Lemma run_drained evs :
  forall j j', run j evs = Some j' -> drained_in_order j ->
  drained_in_order j'.
Proof.
  induction evs as [| e evs IH]; intros j j' H Hinv; simpl in H.
  - injection H as <-. exact Hinv.
  - destruct (step j e) as [j1 |] eqn:E; [| discriminate H].
    eapply IH; [exact H |]. eapply step_drained; eassumption.
Qed.

Lemma drained_chunk_ids j :
  drained_in_order j -> map fst (emitted j) = seq 0 (idx j).
Proof.
  intros (Hlen & _ & Hrec & _). apply list_eq. intros k.
  change (map fst (emitted j)) with (fst <$> emitted j).
  rewrite list_lookup_fmap.
  destruct (emitted j !! k) as [r |] eqn:Hk; simpl.
  - destruct (Hrec k r Hk) as [-> _]. symmetry. apply lookup_seq.
    split; [reflexivity |]. rewrite <- Hlen. eapply lookup_lt_Some, Hk.
  - symmetry. apply lookup_seq_ge. rewrite <- Hlen.
    apply lookup_ge_None, Hk.
Qed.

(** *** The job as [submit_job] leaves it *)

Lemma submit_job_start self audio_path duration fps emotions use_a2e j :
  submit_job self (audio_path, duration) fps emotions use_a2e = Ok j ->
  manager j =
    set_current_fps self
      (match fps with None => default_fps | Some f => f end) /\
  tasks j = launch (length (a2f_clients self)) use_a2e (chunks duration) /\
  calls j = setup_calls (length (a2f_clients self)) audio_path emotions /\
  idx j = 0%nat /\ emitted j = [] /\ stream j = Open /\
  (chunks duration <> [] -> length (a2f_clients self) <> 0%nat).
Proof.
  unfold submit_job. simpl.
  destruct (chunks duration) as [| c cs];
    destruct (length (a2f_clients self)) as [| n] eqn:Hn;
    intros H; try discriminate H; injection H as <-; simpl;
    repeat split; auto.
Qed.

Lemma launch_lookup n use_a2e cs (i : nat) t :
  launch n use_a2e cs !! i = Some t ->
  client_idx t = (i mod n)%nat /\ t_state t = Pending /\
  cs !! i = Some (t_start t, t_end t).
Proof.
  unfold launch. rewrite list_lookup_imap.
  destruct (cs !! i) as [[start end_] |]; simpl; intros H;
    [| discriminate H].
  injection H as <-. auto.
Qed.

Lemma length_launch n use_a2e cs :
  length (launch n use_a2e cs) = length cs.
Proof. unfold launch. apply length_imap. Qed.

Lemma idle_all_free self (c : nat) b :
  idle self -> client_locks self !! c = Some b -> b = false.
Proof.
  unfold idle. intros -> H.
  match type of H with context [map ?f ?l] =>
    change (map f l) with (f <$> l) in H end.
  rewrite list_lookup_fmap in H.
  destruct (a2f_clients self !! c); simpl in H; [| discriminate H].
  injection H as <-. reflexivity.
Qed.

Lemma submit_job_invariants self loaded fps emotions use_a2e j :
  idle self ->
  submit_job self loaded fps emotions use_a2e = Ok j ->
  locks_owned j /\ drained_in_order j.
Proof.
  destruct loaded as [audio_path duration]. intros Hidle H.
  destruct (submit_job_start _ _ _ _ _ _ _ H)
    as (Hm & Hts & _ & Hi & Hem & Hst & Hpool).
  split.
  - split.
    + intros i t Ht. rewrite Hm. simpl. rewrite Hidle, length_map.
      rewrite Hts in Ht. destruct (launch_lookup _ _ _ _ _ Ht) as (-> & _ & Hc).
      apply Nat.mod_upper_bound, Hpool.
      intros Hnil. rewrite Hnil in Hc. discriminate Hc.
    + intros c Hc. rewrite Hm in Hc. simpl in Hc.
      pose proof (idle_all_free _ _ _ Hidle Hc). discriminate.
  - unfold drained_in_order. rewrite Hi, Hem, Hst. simpl.
    split; [reflexivity |]. split; [lia |].
    split; [intros k r Hk; discriminate Hk | discriminate].
Qed.

(** *** Letting the launched tasks finish *)

Lemma advances_refl j : advances j j.
Proof. repeat split; auto. intros i t Ht. exists t. auto. Qed.

Lemma advances_trans j1 j2 j3 :
  advances j1 j2 -> advances j2 j3 -> advances j1 j3.
Proof.
  intros (Hi1 & He1 & Hs1 & Hl1 & Ht1) (Hi2 & He2 & Hs2 & Hl2 & Ht2).
  repeat split; try congruence.
  intros i t Ht. destruct (Ht1 i t Ht) as [t' (Ht' & Hf1 & Hx1)].
  destruct (Ht2 i t' Ht') as [t'' (Ht'' & Hf2 & Hx2)].
  exists t''. split; [exact Ht'' |]. split.
  - intros Hfin. rewrite <- (Hf1 Hfin). apply Hf2.
    rewrite (Hf1 Hfin). exact Hfin.
  - auto.
Qed.

(** Moving one unfinished task to a state that is not a failure. *)
Lemma advances_update j j' (i : nat) t s :
  tasks j !! i = Some t -> finished t = false ->
  failed (set_state t s) = false ->
  tasks j' = <[i := set_state t s]> (tasks j) ->
  idx j' = idx j -> emitted j' = emitted j -> stream j' = stream j ->
  advances j j'.
Proof.
  intros Ht Hunf Hok Hts Hi He Hs. repeat split; auto.
  - rewrite Hts. apply length_insert.
  - intros k u Hu. rewrite Hts.
    destruct (decide (k = i)) as [-> | Hne].
    + rewrite Ht in Hu. injection Hu as <-.
      exists (set_state t s). split.
      * apply list_lookup_insert_eq. eapply lookup_lt_Some, Ht.
      * split; [rewrite Hunf; discriminate | rewrite Hok; discriminate].
    + exists u. rewrite list_lookup_insert_ne by auto. auto.
Qed.

(** A worker call that returns after one second. *)
Lemma return_step j (i : nat) t :
  tasks j !! i = Some t -> t_state t = Running ->
  exists j',
    step j (Return i [] 1%Q) = Some j' /\
    tasks j' = <[i := set_state t (Done [])]> (tasks j) /\
    idx j' = idx j /\ emitted j' = emitted j /\ stream j' = stream j.
Proof.
  intros Ht Hr. unfold step. rewrite Ht, Hr.
  rewrite throughput_nonzero by discriminate.
  eexists. repeat split; reflexivity.
Qed.

Lemma acquire_step j (i : nat) t :
  tasks j !! i = Some t -> t_state t = Pending ->
  client_locks (manager j) !! client_idx t = Some false ->
  exists j',
    step j (Acquire i) = Some j' /\
    tasks j' = <[i := set_state t Running]> (tasks j) /\
    idx j' = idx j /\ emitted j' = emitted j /\ stream j' = stream j.
Proof.
  intros Ht Hp Hfree. unfold step. rewrite Ht, Hp, Hfree.
  eexists. repeat split; reflexivity.
Qed.

Lemma run_snoc j evs j1 e j2 :
  run j evs = Some j1 -> step j1 e = Some j2 -> run j (evs ++ [e]) = Some j2.
Proof.
  intros H1 H2. rewrite run_app, H1. cbn [run]. rewrite H2. reflexivity.
Qed.

(** First sweep: the worker calls under way return. *)
Lemma settle_running j (k : nat) :
  locks_owned j -> (k <= length (tasks j))%nat ->
  exists evs j',
    run j evs = Some j' /\ advances j j' /\ locks_owned j' /\
    forall (i : nat) t,
      tasks j' !! i = Some t -> (i < k)%nat -> t_state t <> Running.
Proof.
  intros Hown. induction k as [| k IH]; intros Hk.
  - exists [], j. split; [reflexivity |]. split; [apply advances_refl |].
    split; [exact Hown |]. intros i t _ Hi. lia.
  - destruct IH as [evs [j1 (Hrun & Hadv & Hown1 & Hq)]]; [lia |].
    pose proof Hadv as (_ & _ & _ & Hlen & _).
    destruct (lookup_lt_is_Some_2 (tasks j1) k) as [t Ht]; [lia |].
    destruct (t_state t) eqn:Hst.
    1, 3, 4:
      exists evs, j1; split; [exact Hrun |]; split; [exact Hadv |];
      split; [exact Hown1 |]; intros i u Hu Hi;
      destruct (decide (i = k)) as [-> | Hne];
      [rewrite Ht in Hu; injection Hu as <-; rewrite Hst; discriminate
      | apply (Hq i u Hu); lia].
    destruct (return_step j1 k t Ht Hst)
      as [j2 (Hstep & Hts & Hi2 & He2 & Hs2)].
    exists (evs ++ [Return k [] 1%Q]), j2.
    split; [eapply run_snoc; eassumption |].
    split.
    { eapply advances_trans; [exact Hadv |].
      apply (advances_update j1 j2 k t (Done []));
        [exact Ht | unfold finished; rewrite Hst; reflexivity | reflexivity
        | exact Hts | exact Hi2 | exact He2 | exact Hs2]. }
    split; [eapply step_locks_owned; eassumption |].
    intros i u Hu Hi. rewrite Hts in Hu.
    apply list_lookup_insert_Some in Hu.
    destruct Hu as [(_ & <- & _) | [Hne Hu]]; [discriminate |].
    apply (Hq i u Hu). lia.
Qed.

(** Second sweep: every waiting task takes its client's lock, and its
    worker call returns. *)
Lemma settle_pending j (k : nat) :
  locks_owned j ->
  (forall (i : nat) t, tasks j !! i = Some t -> t_state t <> Running) ->
  (k <= length (tasks j))%nat ->
  exists evs j',
    run j evs = Some j' /\ advances j j' /\ locks_owned j' /\
    (forall (i : nat) t, tasks j' !! i = Some t -> t_state t <> Running) /\
    forall (i : nat) t,
      tasks j' !! i = Some t -> (i < k)%nat -> finished t = true.
Proof.
  intros Hown Hquiet. induction k as [| k IH]; intros Hk.
  - exists [], j. split; [reflexivity |]. split; [apply advances_refl |].
    split; [exact Hown |]. split; [exact Hquiet |]. intros i t _ Hi. lia.
  - destruct IH as [evs [j1 (Hrun & Hadv & Hown1 & Hq1 & Hfin)]]; [lia |].
    pose proof Hadv as (_ & _ & _ & Hlen & _).
    destruct (lookup_lt_is_Some_2 (tasks j1) k) as [t Ht]; [lia |].
    destruct (t_state t) eqn:Hst.
    2: destruct (Hq1 k t Ht Hst).
    2, 3:
      exists evs, j1; split; [exact Hrun |]; split; [exact Hadv |];
      split; [exact Hown1 |]; split; [exact Hq1 |]; intros i u Hu Hi;
      destruct (decide (i = k)) as [-> | Hne];
      [rewrite Ht in Hu; injection Hu as <-; unfold finished; rewrite Hst;
       reflexivity
      | apply (Hfin i u Hu); lia].
    assert (Hfree : client_locks (manager j1) !! client_idx t = Some false).
    { apply locks_free_when_quiet; [exact Hown1 | exact Hq1 |].
      destruct Hown1 as [Hidx _]. exact (Hidx k t Ht). }
    destruct (acquire_step j1 k t Ht Hst Hfree)
      as [j2 (Hstep2 & Hts2 & Hi2 & He2 & Hs2)].
    assert (Ht2 : tasks j2 !! k = Some (set_state t Running)).
    { rewrite Hts2. apply list_lookup_insert_eq. eapply lookup_lt_Some, Ht. }
    destruct (return_step j2 k (set_state t Running) Ht2 eq_refl)
      as [j3 (Hstep3 & Hts3 & Hi3 & He3 & Hs3)].
    assert (Hts : tasks j3 = <[k := set_state t (Done [])]> (tasks j1)).
    { rewrite Hts3, Hts2, list_insert_insert_eq. reflexivity. }
    exists (evs ++ [Acquire k; Return k [] 1%Q]), j3.
    split.
    { rewrite run_app, Hrun. cbn [run]. rewrite Hstep2, Hstep3. reflexivity. }
    split.
    { eapply advances_trans; [exact Hadv |].
      apply (advances_update j1 j3 k t (Done []));
        [exact Ht | unfold finished; rewrite Hst; reflexivity | reflexivity
        | exact Hts | congruence | congruence | congruence]. }
    split.
    { eapply step_locks_owned; [exact Hstep3 |].
      eapply step_locks_owned; eassumption. }
    split.
    { intros i u Hu. rewrite Hts in Hu.
      apply list_lookup_insert_Some in Hu.
      destruct Hu as [(_ & <- & _) | [Hne Hu]]; [discriminate |].
      exact (Hq1 i u Hu). }
    intros i u Hu Hi. rewrite Hts in Hu.
    apply list_lookup_insert_Some in Hu.
    destruct Hu as [(_ & <- & _) | [Hne Hu]]; [reflexivity |].
    apply (Hfin i u Hu). lia.
Qed.

Lemma run_length_tasks evs :
  forall j j', run j evs = Some j' -> length (tasks j') = length (tasks j).
Proof.
  induction evs as [| e evs IH]; intros j j' H; simpl in H.
  - injection H as <-. reflexivity.
  - destruct (step j e) as [j1 |] eqn:E; [| discriminate H].
    rewrite (IH _ _ H). eapply step_length_tasks, E.
Qed.

(** From any state the launched tasks can all run to their end, after which
    every client lock is free. *)
Lemma settle_all j :
  locks_owned j ->
  exists evs j',
    run j evs = Some j' /\ advances j j' /\ locks_owned j' /\
    (forall (i : nat) t, tasks j' !! i = Some t -> finished t = true) /\
    Forall (eq false) (client_locks (manager j')).
Proof.
  intros Hown.
  destruct (settle_running j (length (tasks j)) Hown (le_n _))
    as [evs1 [j1 (Hrun1 & Hadv1 & Hown1 & Hq1)]].
  pose proof Hadv1 as (_ & _ & _ & Hlen1 & _).
  assert (Hquiet1 : forall (i : nat) t,
             tasks j1 !! i = Some t -> t_state t <> Running).
  { intros i t Ht. apply (Hq1 i t Ht). rewrite <- Hlen1.
    eapply lookup_lt_Some, Ht. }
  destruct (settle_pending j1 (length (tasks j1)) Hown1 Hquiet1 (le_n _))
    as [evs2 [j2 (Hrun2 & Hadv2 & Hown2 & Hq2 & Hfin2)]].
  pose proof Hadv2 as (_ & _ & _ & Hlen2 & _).
  exists (evs1 ++ evs2), j2.
  split; [rewrite run_app, Hrun1; exact Hrun2 |].
  split; [eapply advances_trans; eassumption |].
  split; [exact Hown2 |]. split.
  - intros i t Ht. apply (Hfin2 i t Ht). rewrite <- Hlen2.
    eapply lookup_lt_Some, Ht.
  - apply Forall_lookup. intros c b Hb.
    assert (Hfree : client_locks (manager j2) !! c = Some false).
    { apply locks_free_when_quiet; [exact Hown2 | exact Hq2 |].
      eapply lookup_lt_Some, Hb. }
    congruence.
Qed.

(** Once every task is [Done] the draining loop runs to its end. *)
Lemma drain_all (m : nat) :
  forall j,
    stream j = Open -> (length (tasks j) - idx j)%nat = m ->
    (idx j <= length (tasks j))%nat ->
    (forall (i : nat) t, tasks j !! i = Some t ->
       exists payload, t_state t = Done payload) ->
    exists evs j', run j evs = Some j' /\ stream j' = Exhausted.
Proof.
  induction m as [| m IH]; intros j Hs Hm Hle Hdone.
  - exists [Next]. eexists. cbn [run]. unfold step. rewrite Hs.
    rewrite (proj2 (lookup_ge_None (tasks j) (idx j))) by lia.
    split; reflexivity.
  - destruct (lookup_lt_is_Some_2 (tasks j) (idx j)) as [t Ht]; [lia |].
    destruct (Hdone _ _ Ht) as [payload Hp].
    set (j1 := mkJob (manager j) (tasks j) (calls j) (S (idx j))
                 (emitted j ++ [(idx j, payload)]) Open).
    assert (Hstep : step j Next = Some j1).
    { unfold step. rewrite Hs, Ht, Hp. reflexivity. }
    destruct (IH j1) as [evs [j' [Hrun Hex]]]; simpl; auto; try lia.
    exists (Next :: evs), j'. cbn [run]. rewrite Hstep. auto.
Qed.

Lemma finished_not_failed_done t :
  finished t = true -> failed t = false ->
  exists payload, t_state t = Done payload.
Proof.
  unfold finished, failed. destruct (t_state t); try discriminate; eauto.
Qed.

(** C3: for a job submitted to an idle pool, however the acquisitions of the
    client locks and the ends of the worker calls interleave, the records
    yielded so far carry the chunk ids [0, 1, ..., idx - 1] in that order,
    each with the payload its own task returned; when the stream is
    exhausted there are exactly as many records as slices; and as long as no
    worker call has failed the stream can always be run to exhaustion. *)
Theorem emission_in_slice_order self loaded fps emotions use_a2e j0 :
  idle self ->
  submit_job self loaded fps emotions use_a2e = Ok j0 ->
  length (tasks j0) = length (chunks (snd loaded)) /\
  forall evs j, run j0 evs = Some j ->
    map fst (emitted j) = seq 0 (idx j) /\
    (idx j <= length (tasks j0))%nat /\
    (forall (k : nat) r, emitted j !! k = Some r ->
       fst r = k /\
       exists t, tasks j !! k = Some t /\ t_state t = Done (snd r)) /\
    (stream j = Exhausted ->
       map fst (emitted j) = seq 0 (length (tasks j0))) /\
    (stream j = Open ->
     (forall (i : nat) t, tasks j !! i = Some t -> failed t = false) ->
     exists evs' j',
       run j evs' = Some j' /\ stream j' = Exhausted /\
       map fst (emitted j') = seq 0 (length (tasks j0))).
Proof.
  intros Hidle Hsub.
  destruct (submit_job_invariants _ _ _ _ _ _ Hidle Hsub) as [Hown0 Hdr0].
  split.
  { destruct loaded as [audio_path duration].
    destruct (submit_job_start _ _ _ _ _ _ _ Hsub) as (_ & -> & _).
    apply length_launch. }
  intros evs j Hrun.
  pose proof (run_drained _ _ _ Hrun Hdr0) as Hdr.
  pose proof (run_locks_owned _ _ _ Hrun Hown0) as Hown.
  pose proof (run_length_tasks _ _ _ Hrun) as Hlen.
  pose proof Hdr as (_ & Hle & Hrec & Hex).
  split; [apply drained_chunk_ids, Hdr |].
  split; [rewrite <- Hlen; exact Hle |].
  split; [exact Hrec |].
  split.
  { intros Hs. rewrite (drained_chunk_ids _ Hdr), (Hex Hs), Hlen.
    reflexivity. }
  intros Hopen Hnofail.
  destruct (settle_all j Hown)
    as [evs1 [j1 (Hrun1 & Hadv & Hown1 & Hfin & _)]].
  pose proof Hadv as (Hi1 & He1 & Hs1 & Hlen1 & Hts1).
  assert (Hdone : forall (i : nat) t, tasks j1 !! i = Some t ->
             exists payload, t_state t = Done payload).
  { intros i t Ht. apply finished_not_failed_done; [exact (Hfin i t Ht) |].
    destruct (lookup_lt_is_Some_2 (tasks j) i) as [u Hu];
      [rewrite <- Hlen1; eapply lookup_lt_Some, Ht |].
    destruct (Hts1 i u Hu) as [t' (Ht' & _ & Hx)].
    rewrite Ht in Ht'. injection Ht' as <-.
    destruct (failed t) eqn:Hf; [| reflexivity].
    rewrite (Hnofail i u Hu) in Hx. symmetry. apply Hx. reflexivity. }
  destruct (drain_all (length (tasks j1) - idx j1) j1)
    as [evs2 [j2 [Hrun2 Hex2]]]; auto; try congruence.
  assert (Hrun02 : run j0 (evs ++ evs1 ++ evs2) = Some j2).
  { rewrite run_app, Hrun, run_app, Hrun1. exact Hrun2. }
  exists (evs1 ++ evs2), j2.
  split; [rewrite run_app, Hrun1; exact Hrun2 |].
  split; [exact Hex2 |].
  pose proof (run_drained _ _ _ Hrun02 Hdr0) as Hdr2.
  pose proof Hdr2 as (_ & _ & _ & Hfull).
  rewrite (drained_chunk_ids _ Hdr2), (Hfull Hex2).
  rewrite (run_length_tasks _ _ _ Hrun02). reflexivity.
Qed.

Lemma emission_in_slice_order_witness :
  idle idle_pair /\
  exists j0 j,
    submit_job idle_pair ("a.wav"%string, 1%Q) None None false = Ok j0 /\
    run j0 worker1_first = Some j /\
    stream j = Exhausted /\
    map fst (emitted j) = [0; 1; 2]%nat.
Proof.
  split; [reflexivity |].
  eexists _, _.
  split; [vm_compute; reflexivity |].
  split; [vm_compute; reflexivity |].
  split; [reflexivity |].
  match goal with
  | |- map fst (emitted ?j) = _ =>
      destruct (emission_in_slice_order idle_pair ("a.wav"%string, 1%Q)
                  None None false _ eq_refl eq_refl) as [_ H];
      destruct (H worker1_first j eq_refl) as (_ & _ & _ & Hex & _);
      exact (Hex eq_refl)
  end.
Defined.

(** *** Jobs without slices *)

Lemma setup_calls_no_generate n audio_path emotions :
  Forall (fun c => is_generate c = false)
    (setup_calls n audio_path emotions).
Proof.
  unfold setup_calls. induction (seq 0 n) as [| client l IH]; simpl.
  - constructor.
  - constructor; [reflexivity |].
    destruct emotions; simpl; [constructor; [reflexivity |] |]; exact IH.
Qed.

Lemma step_no_tasks j e j' :
  tasks j = [] -> step j e = Some j' ->
  tasks j' = [] /\ calls j' = calls j /\ emitted j' = emitted j.
Proof.
  intros Hts H. destruct e; unfold step in H; rewrite Hts in H;
    simpl in H; try discriminate H.
  - destruct (stream j); try discriminate H. injection H as <-. auto.
  - destruct (stream j), (idx j); try discriminate H. injection H as <-. auto.
Qed.

Lemma run_no_tasks evs :
  forall j j', tasks j = [] -> run j evs = Some j' ->
  tasks j' = [] /\ calls j' = calls j /\ emitted j' = emitted j.
Proof.
  induction evs as [| e evs IH]; intros j j' Hts H; simpl in H.
  - injection H as <-. auto.
  - destruct (step j e) as [j1 |] eqn:E; [| discriminate H].
    destruct (step_no_tasks _ _ _ Hts E) as (Hts1 & Hc1 & He1).
    destruct (IH _ _ Hts1 H) as (Hts' & Hc' & He').
    split; [exact Hts' |]. split; congruence.
Qed.

Section ShortJobs.
Local Open Scope Q_scope.

(** A duration below half a chunk gives no slice. *)
Lemma nr_splits_short d : d < chunk_size / 2 -> (nr_splits d <= 0)%Z.
Proof.
  intros Hd. unfold nr_splits.
  rewrite <- (Qceiling_Z 0). apply Qceiling_resp_le.
  rewrite div_chunk_size.
  assert (Hhalf : chunk_size / 2 == 3 # 20) by reflexivity.
  rewrite Hhalf in Hd. change (inject_Z 0) with 0. lra.
Qed.

Lemma nr_splits_nonneg d : 0 <= d -> (0 <= nr_splits d)%Z.
Proof.
  intros Hd. pose proof (Qle_ceiling (d / chunk_size - (1 # 2))) as H.
  fold (nr_splits d) in H. rewrite div_chunk_size in H.
  assert (Hlt : inject_Z (-1) < inject_Z (nr_splits d)).
  { change (inject_Z (-1)) with (-1 # 1). lra. }
  rewrite <- Zlt_Qlt in Hlt. lia.
Qed.

Lemma chunks_short d : d < chunk_size / 2 -> chunks d = [].
Proof.
  intros Hd. pose proof (nr_splits_short d Hd) as Hn.
  unfold chunks, range.
  replace (Z.to_nat (nr_splits d)) with 0%nat by lia. reflexivity.
Qed.

Lemma submit_job_short self audio_path d fps emotions use_a2e :
  d < chunk_size / 2 ->
  submit_job self (audio_path, d) fps emotions use_a2e =
    Ok (mkJob
          (set_current_fps self
             (match fps with None => default_fps | Some f => f end))
          []
          (setup_calls (length (a2f_clients self)) audio_path emotions)
          0 [] Open).
Proof.
  intros Hd. unfold submit_job. simpl. rewrite (chunks_short d Hd).
  reflexivity.
Qed.

(** C6: a job whose duration is below half a chunk width has
    [ceil(duration / chunk_size - 0.5) = 0] slices: [submit_job] launches no
    task, its first resumption ends the stream, and in no run of the job is a
    record yielded or a [generate_blendshapes] call made. *)
Theorem short_job_yields_nothing self audio_path d fps emotions use_a2e :
  0 <= d -> d < chunk_size / 2 ->
  nr_splits d = 0%Z /\
  chunks d = [] /\
  exists j0,
    submit_job self (audio_path, d) fps emotions use_a2e = Ok j0 /\
    tasks j0 = [] /\
    (exists j1, step j0 Next = Some j1 /\ stream j1 = Exhausted /\
                emitted j1 = []) /\
    forall evs j, run j0 evs = Some j ->
      tasks j = [] /\ emitted j = [] /\
      Forall (fun c => is_generate c = false) (calls j).
Proof.
  intros H0 Hd.
  split.
  { pose proof (nr_splits_short d Hd). pose proof (nr_splits_nonneg d H0).
    lia. }
  split; [apply chunks_short, Hd |].
  eexists. split; [apply submit_job_short, Hd |].
  split; [reflexivity |].
  split; [eexists; split; [reflexivity | split; reflexivity] |].
  intros evs j Hrun.
  apply run_no_tasks in Hrun; [| reflexivity].
  destruct Hrun as (Hts & Hc & He). simpl in Hc, He.
  split; [exact Hts |]. split; [exact He |].
  rewrite Hc. apply setup_calls_no_generate.
Qed.

Lemma short_job_yields_nothing_witness :
  (0 <= 1 # 10) /\ (1 # 10 < chunk_size / 2) /\
  nr_splits (1 # 10) = 0%Z /\ chunks (1 # 10) = [].
Proof.
  split; [discriminate |]. split; [reflexivity |].
  destruct (short_job_yields_nothing idle_pair "a.wav"%string (1 # 10)
              None None false) as (Hn & Hc & _).
  - discriminate.
  - reflexivity.
  - split; [exact Hn | exact Hc].
Defined.

End ShortJobs.

(** *** Early disconnection *)




(** *** Request validation *)

Lemma setup_calls_bind_audio n audio_path emotions (c : nat) :
  (c < n)%nat ->
  In (set_audio c audio_path) (setup_calls n audio_path emotions).
Proof.
  intros Hc. unfold setup_calls. apply in_flat_map.
  exists c. split; [apply in_seq; lia | left; reflexivity].
Qed.

Lemma value_error_caught c :
  issubclass c ValueError = true -> handler_of emotions_clauses c = Some 0%nat.
Proof. destruct c; simpl; intros H; first [reflexivity | discriminate H]. Qed.

(** C7: emotion weights that fail to parse never reach [submit_job]: a
    [ValueError] (such as a [JSONDecodeError] or a validation error) is
    answered with status 400, and whatever the exception no worker call is
    made.  A non-positive duration is not rejected: [submit_job] binds the
    audio on every client (and sets the emotions when given), launches no
    task, so makes no [generate_blendshapes] call, and its stream ends
    normally without a record. *)
Theorem invalid_parameters_handling :
  (forall self parse saved load_audio fps text c,
     text <> EmptyString -> parse text = Raised c ->
     (issubclass c ValueError = true ->
      process_audio_endpoint (Some self) parse saved load_audio fps
        (Some text) = HTTPException 400) /\
     worker_calls
       (process_audio_endpoint (Some self) parse saved load_audio fps
          (Some text)) = []) /\
  (forall self audio_path d fps emotions use_a2e,
     (d <= 0)%Q ->
     exists j,
       submit_job self (audio_path, d) fps emotions use_a2e = Ok j /\
       tasks j = [] /\
       calls j =
         setup_calls (length (a2f_clients self)) audio_path emotions /\
       (forall (c : nat), (c < length (a2f_clients self))%nat ->
          In (set_audio c audio_path) (calls j)) /\
       Forall (fun c => is_generate c = false) (calls j) /\
       exists j1, step j Next = Some j1 /\ stream j1 = Exhausted /\
                  emitted j1 = []) /\
  (forall self parse audio_filename load_audio fps,
     process_audio_endpoint (Some self) parse (Some audio_filename)
       load_audio fps None =
     StreamingResponse
       (submit_job self (load_audio audio_filename) fps None false)).
Proof.
  split; [| split].
  - intros self parse saved load_audio fps text c Hne Hparse.
    unfold process_audio_endpoint.
    destruct text as [| a text]; [contradiction |]. rewrite Hparse.
    split.
    + intros Hc. rewrite (value_error_caught c Hc). reflexivity.
    + destruct (handler_of emotions_clauses c); reflexivity.
  - intros self audio_path d fps emotions use_a2e Hd.
    assert (Hshort : (d < chunk_size / 2)%Q).
    { assert (Hhalf : (chunk_size / 2 == 3 # 20)%Q) by reflexivity.
      rewrite Hhalf. lra. }
    eexists. split; [apply submit_job_short, Hshort |]. simpl.
    split; [reflexivity |]. split; [reflexivity |].
    split; [intros c Hc; apply setup_calls_bind_audio, Hc |].
    split; [apply setup_calls_no_generate |].
    eexists. split; [reflexivity |]. split; reflexivity.
  - reflexivity.
Qed.

Lemma invalid_parameters_handling_witness :
  process_audio_endpoint (Some idle_pair) reject_all (Some "a.wav"%string)
    empty_recording None (Some "{"%string) = HTTPException 400.
Proof.
  destruct invalid_parameters_handling as (Hbad & _).
  destruct (Hbad idle_pair reject_all (Some "a.wav"%string) empty_recording
              None "{"%string JSONDecodeError) as [H400 _].
  - discriminate.
  - reflexivity.
  - apply H400. reflexivity.
Defined.

(** An empty recording is not rejected: the audio is bound on both clients
    and the response streams. *)
Lemma empty_recording_not_rejected :
  exists j,
    process_audio_endpoint (Some idle_pair) reject_all (Some "a.wav"%string)
      empty_recording None None = StreamingResponse (Ok j) /\
    (snd (empty_recording "a.wav"%string) <= 0)%Q /\
    worker_calls
      (process_audio_endpoint (Some idle_pair) reject_all
         (Some "a.wav"%string) empty_recording None None) =
      [set_audio 0 "a.wav"%string; set_audio 1 "a.wav"%string] /\
    tasks j = [].
Proof.
  eexists. split; [vm_compute; reflexivity |].
  split; [discriminate |]. split; reflexivity.
Qed.

(** ** Construction *)

(** [__init__] leaves one free lock per client. *)
Lemma init_idle w pr default_workers clients_per_worker st self :
  __init__ w pr default_workers clients_per_worker = (st, Ok self) ->
  idle self /\
  length (a2f_clients self) = Z.to_nat clients_per_worker.
Proof.
  unfold __init__. intros H.
  destruct (bind_clients w _ (Z.to_nat clients_per_worker) _)
    as [st1 [clients | c]] eqn:Hb; [| discriminate H].
  injection H as _ <-. split; [reflexivity |]. simpl.
  eapply bind_clients_ok, Hb.
Qed.

(** With the first three tries refused, two clients end on ports 8193 and
    8190. *)
Example init_binds_two_clients :
  exists st self,
    __init__ busy_then_free (mkProcess ∅ 0%nat) 2 2 = (st, Ok self) /\
    a2f_clients self = [8193; 8190] /\
    current_fps self = 30 /\ idle self.
Proof.
  eexists _, _. split; [vm_compute; reflexivity |].
  split; [reflexivity |]. split; reflexivity.
Qed.

(** ** The scenarios in IEEE double arithmetic *)

(** A recording of 1.0 s: three slices, the last ending below 1.0. *)
Example binary64_one_second :
  Binary64.nr_splits 1%float = 3 /\
  length (Binary64.chunks 1%float) = 3%nat /\
  exists b,
    last (Binary64.chunks 1%float) = Some b /\
    PrimFloat.ltb (snd b) 1%float = true /\
    (Binary64.to_Q (snd b) < 9 # 10)%Q.
Proof.
  split; [vm_compute; reflexivity |]. split; [vm_compute; reflexivity |].
  eexists. split; [vm_compute; reflexivity |].
  split; vm_compute; reflexivity.
Qed.

(** A recording of 0.1 s: no slice. *)
Example binary64_tenth_of_a_second :
  Binary64.nr_splits Binary64.tenth = 0 /\
  Binary64.chunks Binary64.tenth = [].
Proof. split; vm_compute; reflexivity. Qed.

(** ** Releasing the lock files: proofs *)

Lemma release_lock_held lf pr number f unlock :
  lf !! number = Some f ->
  exists r,
    _release_lock lf pr number unlock =
      (delete number lf, close_if (Some f) pr, r) /\
    (r = Ok tt \/
     exists c, unlock = Raised c /\ catches [OSError] c = false /\
               r = Raised c).
Proof.
  intros Hf. unfold _release_lock. rewrite Hf.
  destruct unlock as [[] | c].
  - exists (Ok tt). split; [reflexivity | left; reflexivity].
  - destruct (catches [OSError] c) eqn:Hc.
    + exists (Ok tt). split; [reflexivity | left; reflexivity].
    + exists (Raised c). split; [reflexivity |].
      right. exists c. auto.
Qed.

Lemma catches_oserror c :
  issubclass c OSError = true -> catches [OSError] c = true.
Proof. intros H. unfold catches. simpl. rewrite H. reflexivity. Qed.

(** X1: a lock taken on a number that was not held and then released leaves
    [locked_files] as it was and the lock file closed, whatever the unlock
    call answers; an exception of the unlock call escapes only when it is
    not an [OSError]. *)
Theorem acquire_then_release lf pr number os os2 unlock :
  lf !! number = None -> granted os = true ->
  exists lf1 pr1 pr2 r,
    _acquire_lock lf pr number os os2 = (lf1, pr1, Ok true) /\
    _release_lock lf1 pr1 number unlock = (lf, pr2, r) /\
    (next_file pr ∉ opened pr2) /\
    opened pr2 ⊆ opened pr /\
    (r = Ok tt \/
     exists c, unlock = Raised c /\ issubclass c OSError = false /\
               r = Raised c).
Proof.
  intros Hnone Hg. unfold granted in Hg.
  unfold _acquire_lock, try_lock.
  destruct (open_outcome os) as [[] | c]; [| discriminate Hg].
  destruct (lock_outcome os) as [[] | c]; [| discriminate Hg].
  set (f := next_file pr).
  destruct (release_lock_held (<[number := f]> lf)
              (mkProcess ({[f]} ∪ opened pr) (S f)) number f unlock)
    as [r [Hrel Hr]]; [apply lookup_insert_eq |].
  rewrite delete_insert_id in Hrel by exact Hnone.
  eexists _, _, _, r. split; [reflexivity |]. split; [exact Hrel |].
  simpl. split; [| split].
  - intros Hf. apply elem_of_difference in Hf. destruct Hf as [_ Hn].
    apply Hn, elem_of_singleton. reflexivity.
  - intros x Hx. apply elem_of_difference in Hx. destruct Hx as [Hx Hn].
    apply elem_of_union in Hx. destruct Hx as [Hx | Hx];
      [contradiction | exact Hx].
  - destruct Hr as [-> | [c (-> & Hc & ->)]]; [left; reflexivity |].
    right. exists c. split; [reflexivity |]. split; [| reflexivity].
    unfold catches in Hc. simpl in Hc.
    destruct (issubclass c OSError); [discriminate Hc | reflexivity].
Qed.

Lemma acquire_then_release_witness :
  exists pr2,
    _release_lock (<[8190 := 0%nat]> ∅)
      (mkProcess ({[0%nat]} ∪ ∅) 1%nat) 8190 (Raised PermissionError) =
      (∅, pr2, Ok tt) /\
    0%nat ∉ opened pr2.
Proof.
  destruct (acquire_then_release ∅ (mkProcess ∅ 0%nat) 8190 unlocked
              contended (Raised PermissionError))
    as (lf1 & pr1 & pr2 & r & Hacq & Hrel & Hclosed & _ & Hr).
  - reflexivity.
  - reflexivity.
  - injection Hacq as <- <-.
    destruct Hr as [-> | [c (Hc & Hsub & _)]].
    + exists pr2. split; [exact Hrel | exact Hclosed].
    + injection Hc as <-. discriminate Hsub.
Defined.

(** What the release loop leaves, when no exception escapes it. *)
Lemma release_ports_spec keys unlock :
  unlock_errors_only unlock ->
  forall lf pr,
  exists lf' pr',
    release_ports keys unlock lf pr = (lf', pr', Ok tt) /\
    (forall port,
       lf' !! port = if decide (port ∈ keys) then None else lf !! port) /\
    (forall f,
       f ∈ opened pr' <->
       f ∈ opened pr /\
       ~ (exists port, port ∈ keys /\ lf !! port = Some f)).
Proof.
  intros Hun. induction keys as [| k rest IH]; intros lf pr.
  - exists lf, pr. split; [reflexivity |]. split.
    + intros port. rewrite decide_False by apply not_elem_of_nil.
      reflexivity.
    + intros f. split; [intros Hf; split; [exact Hf |] | tauto].
      intros [port [Hin _]]. apply not_elem_of_nil in Hin. exact Hin.
  - simpl. destruct (lf !! k) as [f0 |] eqn:Hk.
    + destruct (release_lock_held lf pr k f0 (unlock k) Hk) as [r [Hrel Hr]].
      assert (r = Ok tt) as ->.
      { destruct Hr as [-> | [c (Hc & Hcatch & _)]]; [reflexivity |].
        rewrite (catches_oserror c (Hun k c Hc)) in Hcatch.
        discriminate Hcatch. }
      rewrite Hrel.
      destruct (IH (delete k lf) (close_if (Some f0) pr))
        as (lf' & pr' & Hrun & Hlf & Hop).
      exists lf', pr'. split; [exact Hrun |]. split.
      * intros port. rewrite Hlf.
        destruct (decide (port ∈ rest)) as [Hin | Hnin].
        -- rewrite decide_True by (apply elem_of_cons; right; exact Hin).
           reflexivity.
        -- destruct (decide (port = k)) as [-> | Hne].
           ++ rewrite decide_True by (apply elem_of_cons; left; reflexivity).
              apply lookup_delete_eq.
           ++ rewrite decide_False
                by (rewrite elem_of_cons; intros [Heq | Hin]; congruence).
              apply lookup_delete_ne. congruence.
      * intros f. rewrite Hop. simpl. rewrite elem_of_difference.
        rewrite elem_of_singleton. split.
        -- intros [[Hf Hne] Hno]. split; [exact Hf |].
           intros [port [Hin Hp]]. apply elem_of_cons in Hin.
           destruct Hin as [-> | Hin]; [congruence |].
           apply Hno. exists port. split; [exact Hin |].
           destruct (decide (port = k)) as [-> | Hpk]; [congruence |].
           rewrite lookup_delete_ne by congruence. exact Hp.
        -- intros [Hf Hno]. split; [split; [exact Hf |] |].
           ++ intros ->. apply Hno. exists k.
              split; [apply elem_of_cons; left; reflexivity | exact Hk].
           ++ intros [port [Hin Hp]]. apply Hno. exists port.
              split; [apply elem_of_cons; right; exact Hin |].
              destruct (decide (port = k)) as [-> | Hpk].
              ** rewrite lookup_delete_eq in Hp. discriminate Hp.
              ** rewrite lookup_delete_ne in Hp by congruence. exact Hp.
    + unfold _release_lock. rewrite Hk.
      destruct (IH lf pr) as (lf' & pr' & Hrun & Hlf & Hop).
      exists lf', pr'. split; [exact Hrun |]. split.
      * intros port. rewrite Hlf.
        destruct (decide (port ∈ rest)) as [Hin | Hnin].
        -- rewrite decide_True by (apply elem_of_cons; right; exact Hin).
           reflexivity.
        -- destruct (decide (port = k)) as [-> | Hne].
           ++ rewrite decide_True by (apply elem_of_cons; left; reflexivity).
              exact Hk.
           ++ rewrite decide_False
                by (rewrite elem_of_cons; intros [Heq | Hin]; congruence).
              reflexivity.
      * intros f. rewrite Hop. split.
        -- intros [Hf Hno]. split; [exact Hf |].
           intros [port [Hin Hp]]. apply elem_of_cons in Hin.
           destruct Hin as [-> | Hin]; [congruence |]. eauto.
        -- intros [Hf Hno]. split; [exact Hf |].
           intros [port [Hin Hp]]. apply Hno. exists port.
           split; [apply elem_of_cons; right; exact Hin | exact Hp].
Qed.

Lemma release_ports_all keys unlock lf pr :
  snapshot_of lf keys -> unlock_errors_only unlock ->
  exists pr',
    release_ports keys unlock lf pr = (∅, pr', Ok tt) /\
    (forall port f, lf !! port = Some f -> f ∉ opened pr') /\
    (forall f,
       f ∈ opened pr' <->
       f ∈ opened pr /\ forall port, lf !! port <> Some f).
Proof.
  intros Hsnap Hun.
  destruct (release_ports_spec keys unlock Hun lf pr)
    as (lf' & pr' & Hrun & Hlf & Hop).
  assert (lf' = ∅) as ->.
  { apply map_eq. intros port. rewrite Hlf, lookup_empty.
    destruct (decide (port ∈ keys)) as [_ | Hnin]; [reflexivity |].
    destruct (lf !! port) as [f |] eqn:Hp; [| reflexivity].
    destruct Hnin. apply Hsnap. rewrite Hp. eauto. }
  exists pr'. split; [exact Hrun |]. split.
  - intros port f Hp Hf. apply Hop in Hf. destruct Hf as [_ Hno].
    apply Hno. exists port. split; [| exact Hp].
    apply Hsnap. rewrite Hp. eauto.
  - intros f. rewrite Hop. split.
    + intros [Hf Hno]. split; [exact Hf |]. intros port Hp.
      apply Hno. exists port. split; [| exact Hp].
      apply Hsnap. rewrite Hp. eauto.
    + intros [Hf Hno]. split; [exact Hf |].
      intros [port [_ Hp]]. exact (Hno port Hp).
Qed.

(** X2: at shutdown [lifespan] releases every lock the manager holds,
    unlock errors of the system notwithstanding: [locked_files] ends empty,
    every lock file is closed, no other open file is touched, and the
    clients and their locks are left as they were. *)
Theorem lifespan_releases_every_lock streaming_manager pr keys unlock :
  snapshot_of (locked_files streaming_manager) keys ->
  unlock_errors_only unlock ->
  exists sm' pr',
    lifespan_shutdown streaming_manager pr keys unlock = (sm', pr', Ok tt) /\
    locked_files sm' = ∅ /\
    (forall port f,
       locked_files streaming_manager !! port = Some f -> f ∉ opened pr') /\
    (forall f,
       f ∈ opened pr' <->
       f ∈ opened pr /\
       forall port, locked_files streaming_manager !! port <> Some f) /\
    a2f_clients sm' = a2f_clients streaming_manager /\
    client_locks sm' = client_locks streaming_manager /\
    current_fps sm' = current_fps streaming_manager.
Proof.
  intros Hsnap Hun. unfold lifespan_shutdown.
  destruct (release_ports_all keys unlock _ pr Hsnap Hun)
    as (pr' & -> & Hclosed & Hop).
  eexists _, pr'. split; [reflexivity |]. simpl.
  split; [reflexivity |]. split; [exact Hclosed |]. split; [exact Hop |].
  split; [reflexivity |]. split; reflexivity.
Qed.

Lemma lifespan_releases_every_lock_witness :
  exists sm' pr',
    lifespan_shutdown
      (mkManager [8190; 8191] (<[8191 := 1%nat]> (<[8190 := 0%nat]> ∅))
         [8190; 8191] [false; false] 30)
      (mkProcess {[0%nat; 1%nat; 2%nat]} 3%nat) [8190; 8191]
      (fun port => if port =? 8190 then Raised PermissionError else Ok tt) =
      (sm', pr', Ok tt) /\
    locked_files sm' = ∅ /\ (0%nat ∉ opened pr') /\ 2%nat ∈ opened pr'.
Proof.
  destruct (lifespan_releases_every_lock
              (mkManager [8190; 8191]
                 (<[8191 := 1%nat]> (<[8190 := 0%nat]> ∅))
                 [8190; 8191] [false; false] 30)
              (mkProcess {[0%nat; 1%nat; 2%nat]} 3%nat) [8190; 8191]
              (fun port =>
                 if port =? 8190 then Raised PermissionError else Ok tt))
    as (sm' & pr' & Hrun & Hempty & Hclosed & Hop & _).
  - intros port [f Hf]. simpl in Hf.
    apply lookup_insert_Some in Hf. destruct Hf as [[<- _] | [_ Hf]].
    + apply elem_of_cons. right. apply elem_of_cons. left. reflexivity.
    + apply lookup_insert_Some in Hf. destruct Hf as [[<- _] | [_ Hf]].
      * apply elem_of_cons. left. reflexivity.
      * rewrite lookup_empty in Hf. discriminate Hf.
  - intros port c. destruct (port =? 8190); intros H; [| discriminate H].
    injection H as <-. reflexivity.
  - exists sm', pr'. split; [exact Hrun |]. split; [exact Hempty |].
    split.
    + apply (Hclosed 8190 0%nat). simpl.
      rewrite lookup_insert_ne by discriminate. apply lookup_insert_eq.
    + apply Hop. split.
      * simpl. apply elem_of_union_r, elem_of_singleton. reflexivity.
      * intros port Hp. simpl in Hp.
        apply lookup_insert_Some in Hp. destruct Hp as [[_ Hp] | [_ Hp]];
          [discriminate Hp |].
        apply lookup_insert_Some in Hp. destruct Hp as [[_ Hp] | [_ Hp]];
          [discriminate Hp |].
        rewrite lookup_empty in Hp. discriminate Hp.
Defined.




(** ** Port allocation: what it leaves behind *)

Lemma sweep_frame w (Hos : forall k p, os_errors_only (answer w k p)) ports :
  forall st st' r, sweep w ports st = (st', r) ->
  match r with
  | None =>
      a_locked st' = a_locked st /\
      opened (a_process st') ⊆ opened (a_process st)
  | Some (inl port) =>
      exists f,
        a_locked st' = <[port := f]> (a_locked st) /\
        f ∈ opened (a_process st') /\
        opened (a_process st') ⊆ {[f]} ∪ opened (a_process st)
  | Some (inr c) => False
  end.
Proof.
  induction ports as [| port rest IH]; intros st st' r Hs; simpl in Hs.
  - injection Hs as <- <-. split; reflexivity.
  - destruct (acquire_lock_cases (a_locked st) (a_process st) port
                (answer w (a_tries st) port) (answer2 w (a_tries st) port)
                (Hos (a_tries st) port))
      as [[_ Heq] | [_ [pr' [Heq [Hsub _]]]]]; rewrite Heq in Hs.
    + injection Hs as <- <-. exists (next_file (a_process st)). simpl.
      split; [reflexivity |].
      split; [apply elem_of_union_l, elem_of_singleton; reflexivity |].
      reflexivity.
    + apply IH in Hs. simpl in Hs. destruct r as [[p | c] |].
      * destruct Hs as [f (Hl & Hf & Hop)]. exists f.
        split; [exact Hl |]. split; [exact Hf |].
        intros x Hx. apply Hop in Hx. apply elem_of_union in Hx.
        apply elem_of_union. destruct Hx as [Hx | Hx]; [left; exact Hx |].
        right. apply Hsub, Hx.
      * exact Hs.
      * destruct Hs as [Hl Hop]. split; [exact Hl |].
        intros x Hx. apply Hsub, Hop, Hx.
Qed.

Lemma sweeps_frame w (Hos : forall k p, os_errors_only (answer w k p)) ports
    rounds :
  forall st st' r, sweeps w ports rounds st = (st', r) ->
  match r with
  | Ok port =>
      exists f,
        a_locked st' = <[port := f]> (a_locked st) /\
        f ∈ opened (a_process st') /\
        opened (a_process st') ⊆ {[f]} ∪ opened (a_process st)
  | Raised c =>
      a_locked st' = a_locked st /\
      opened (a_process st') ⊆ opened (a_process st)
  end.
Proof.
  induction rounds as [| rounds IH]; intros st st' r Hs; simpl in Hs.
  - injection Hs as <- <-. split; reflexivity.
  - destruct (sweep w ports st) as [st1 r1] eqn:Hsw.
    pose proof (sweep_frame w Hos ports _ _ _ Hsw) as H1.
    destruct r1 as [[port | c] |].
    + injection Hs as <- <-. exact H1.
    + contradiction.
    + destruct H1 as [Hl1 Hop1]. apply IH in Hs.
      destruct r as [port | c].
      * destruct Hs as [f (Hl & Hf & Hop)]. exists f.
        split; [rewrite Hl, Hl1; reflexivity |]. split; [exact Hf |].
        intros x Hx. apply Hop in Hx. apply elem_of_union in Hx.
        apply elem_of_union. destruct Hx as [Hx | Hx]; [left; exact Hx |].
        right. apply Hop1, Hx.
      * destruct Hs as [Hl Hop]. split; [congruence |].
        intros x Hx. apply Hop1, Hop, Hx.
Qed.

(** X4: [_next_port] changes [locked_files] by the entry of the returned
    port only, and of the files it opened at most the lock file of that port
    is still open; when it raises, [locked_files] is as before and every
    file it opened has been closed again. *)
Theorem next_port_leaves_only_its_lock w ports st st' r :
  (forall k p, os_errors_only (answer w k p)) ->
  _next_port w ports st = (st', r) ->
  match r with
  | Ok port =>
      exists f,
        a_locked st' = <[port := f]> (a_locked st) /\
        f ∈ opened (a_process st') /\
        opened (a_process st') ⊆ {[f]} ∪ opened (a_process st)
  | Raised c =>
      a_locked st' = a_locked st /\
      opened (a_process st') ⊆ opened (a_process st)
  end.
Proof. intros Hos H. exact (sweeps_frame w Hos ports 10 _ _ _ H). Qed.

Lemma next_port_leaves_only_its_lock_witness :
  exists f,
    a_locked (fst (_next_port busy_then_free [8190; 8191] fresh_alloc)) =
      <[8191 := f]> ∅ /\
    opened (a_process (fst (_next_port busy_then_free [8190; 8191]
                              fresh_alloc))) ⊆ {[f]} ∪ ∅.
Proof.
  pose proof (next_port_leaves_only_its_lock busy_then_free [8190; 8191]
                fresh_alloc
                (fst (_next_port busy_then_free [8190; 8191] fresh_alloc))
                (Ok 8191)) as H.
  destruct H as [f (Hl & _ & Hop)].
  - intros k p. simpl. destruct (k <? 3)%nat.
    + exact contended_os_errors_only.
    + exact unlocked_os_errors_only.
  - vm_compute. reflexivity.
  - exists f. split; [exact Hl | exact Hop].
Defined.

(** ** Construction: the clients and their ports *)

Lemma range2_bounds a b p : In p (range2 a b) -> a <= p < b.
Proof.
  unfold range2, range. intros H. apply in_map_iff in H.
  destruct H as [i [<- Hi]]. apply in_map_iff in Hi.
  destruct Hi as [k [<- Hk]]. apply in_seq in Hk. lia.
Qed.

Lemma range2_empty a b : b <= a -> range2 a b = [].
Proof.
  intros H. unfold range2, range.
  replace (Z.to_nat (b - a)) with 0%nat by lia. reflexivity.
Qed.

Lemma bind_clients_spec w (Hos : forall k p, os_errors_only (answer w k p))
    ports n :
  forall st st' r, bind_clients w ports n st = (st', r) ->
  (forall p, is_Some (a_locked st !! p) -> is_Some (a_locked st' !! p)) /\
  match r with
  | Ok clients =>
      length clients = n /\
      Forall (fun p => In p ports /\ is_Some (a_locked st' !! p)) clients
  | Raised c => c = RuntimeError
  end.
Proof.
  induction n as [| n IH]; intros st st' r H; simpl in H.
  - injection H as <- <-. split; [auto |]. split; [reflexivity | constructor].
  - destruct (_next_port w ports st) as [st1 r1] eqn:Hnp.
    pose proof (sweeps_frame w Hos ports 10 _ _ _ Hnp) as Hfr.
    destruct (sweeps_spec w Hos ports 10 _ _ _ Hnp)
      as [tried (_ & _ & _ & Hr1)].
    destruct r1 as [port | c].
    + destruct Hfr as [f (Hl1 & _ & _)].
      destruct Hr1 as (_ & _ & Hin & _).
      destruct (bind_clients w ports n st1) as [st2 r2] eqn:Hb.
      destruct (IH _ _ _ Hb) as [Hkeep Hr2].
      assert (Hkeep1 : forall p, is_Some (a_locked st !! p) ->
                                 is_Some (a_locked st1 !! p)).
      { intros p Hp. rewrite Hl1. apply lookup_insert_is_Some.
        destruct (decide (port = p)); [left; assumption | right; auto]. }
      destruct r2 as [rest | c]; injection H as <- <-.
      * split; [auto |]. destruct Hr2 as [Hlen Hall].
        split; [simpl; rewrite Hlen; reflexivity |].
        constructor; [| exact Hall]. split; [exact Hin |].
        apply Hkeep. rewrite Hl1, lookup_insert_eq. eauto.
      * split; [auto | exact Hr2].
    + injection H as <- <-. destruct Hfr as [Hl1 _].
      split; [intros p Hp; rewrite Hl1; exact Hp |].
      destruct Hr1 as [Hc _]. exact Hc.
Qed.

(** X5: when [__init__] succeeds it has bound exactly [clients_per_worker]
    clients, each to a port of [8190 .. 8190 + DEFAULT_WORKERS *
    clients_per_worker - 1] whose lock file is recorded in [locked_files],
    with one free lock per client; when it fails it is with the
    [RuntimeError] of [_next_port].  With an empty port range and at least
    one client to bind it fails without a single try. *)
Theorem init_binds_locked_ports w pr default_workers clients_per_worker st r :
  (forall k p, os_errors_only (answer w k p)) ->
  __init__ w pr default_workers clients_per_worker = (st, r) ->
  match r with
  | Ok self =>
      length (a2f_clients self) = Z.to_nat clients_per_worker /\
      Forall
        (fun p =>
           8190 <= p < 8190 + default_workers * clients_per_worker /\
           is_Some (locked_files self !! p))
        (a2f_clients self) /\
      idle self
  | Raised c => c = RuntimeError
  end /\
  (0 < clients_per_worker -> default_workers * clients_per_worker <= 0 ->
   r = Raised RuntimeError /\ a_log st = []).
Proof.
  intros Hos H. split.
  - unfold __init__ in H.
    destruct (bind_clients w _ (Z.to_nat clients_per_worker) _)
      as [st1 r1] eqn:Hb.
    destruct (bind_clients_spec w Hos _ _ _ _ _ Hb) as [_ Hr1].
    destruct r1 as [clients | c]; injection H as <- <-; [| exact Hr1].
    destruct Hr1 as [Hlen Hall]. simpl.
    split; [exact Hlen |]. split; [| reflexivity].
    eapply Forall_impl; [exact Hall |]. intros p [Hin Hp].
    split; [apply range2_bounds, Hin | exact Hp].
  - intros Hpos Hrange. unfold __init__ in H.
    rewrite range2_empty in H by lia.
    destruct (Z.to_nat clients_per_worker) as [| n] eqn:Hn; [lia |].
    simpl in H. injection H as <- <-. split; reflexivity.
Qed.

Lemma init_binds_locked_ports_witness :
  exists self,
    snd (__init__ busy_then_free (mkProcess ∅ 0%nat) 2 2) = Ok self /\
    length (a2f_clients self) = 2%nat /\
    Forall (fun p => 8190 <= p < 8194) (a2f_clients self).
Proof.
  pose proof (init_binds_locked_ports busy_then_free (mkProcess ∅ 0%nat) 2 2
                (fst (__init__ busy_then_free (mkProcess ∅ 0%nat) 2 2))
                (snd (__init__ busy_then_free (mkProcess ∅ 0%nat) 2 2)))
    as H.
  destruct H as [H _].
  - intros k p. simpl. destruct (k <? 3)%nat.
    + exact contended_os_errors_only.
    + exact unlocked_os_errors_only.
  - apply surjective_pairing.
  - remember (snd (__init__ busy_then_free (mkProcess ∅ 0%nat) 2 2)) as r
      eqn:Hr.
    vm_compute in Hr. subst r. destruct H as (Hlen & Hall & _).
    eexists. split; [reflexivity |]. split; [exact Hlen |].
    eapply Forall_impl; [exact Hall |]. intros p [Hp _]. exact Hp.
Defined.

(** ** Slices: lengths and count *)

Section SliceLengths.
Local Open Scope Q_scope.





End SliceLengths.

(** ** Rate control: monotonicity and descent *)

Lemma inject_nat_nonneg (n : nat) : (0 <= inject_Z (Z.of_nat n))%Q.
Proof. change 0%Q with (inject_Z 0). rewrite <- Zle_Qle. lia. Qed.

Lemma inject_Z_nonneg (z : Z) : 0 <= z -> (0 <= inject_Z z)%Q.
Proof. intros H. change 0%Q with (inject_Z 0). rewrite <- Zle_Qle. exact H. Qed.

Lemma safe_fps_monotone n fps fps' alpha alpha' :
  0 <= fps -> fps <= fps' -> (0 <= alpha)%Q -> (alpha <= alpha')%Q ->
  safe_fps n fps alpha <= safe_fps n fps' alpha'.
Proof.
  intros H0 Hf Ha0 Ha. unfold safe_fps.
  apply Z.max_le_compat_l, Qfloor_resp_le.
  pose proof (inject_nat_nonneg n) as HN.
  pose proof (inject_Z_nonneg fps H0) as HF.
  assert (HFF : (inject_Z fps <= inject_Z fps')%Q)
    by (rewrite <- Zle_Qle; exact Hf).
  set (N := inject_Z (Z.of_nat n)) in *.
  set (F := inject_Z fps) in *. set (F' := inject_Z fps') in *.
  assert (H1 : (N * F <= N * F')%Q) by nra.
  assert (H2 : (0 <= N * F')%Q) by nra.
  assert (H3 : (N * F * alpha <= N * F' * alpha)%Q) by nra.
  assert (H4 : (N * F' * alpha <= N * F' * alpha')%Q) by nra.
  lra.
Qed.

(** X8: the rate update is monotone: from a non-negative rate, a slice
    served at a higher throughput ratio, or a higher current rate, never
    gives a lower new rate. *)
Theorem adjust_fps_monotone n fps fps' alpha alpha' :
  0 <= fps -> fps <= fps' -> (0 <= alpha)%Q -> (alpha <= alpha')%Q ->
  adjust_fps n fps alpha <= adjust_fps n fps' alpha'.
Proof.
  intros H0 Hf Ha0 Ha.
  pose proof (safe_fps_monotone n fps fps' alpha alpha' H0 Hf Ha0 Ha) as Hs.
  unfold adjust_fps. apply Z.min_le_compat_l, Z.div_le_mono; lia.
Qed.

Lemma adjust_fps_monotone_witness :
  adjust_fps 2 12 (1 # 2) <= adjust_fps 2 20 1.
Proof.
  apply adjust_fps_monotone; [lia | lia | discriminate | discriminate].
Defined.

(** Far behind, the update halves the distance to [min_fps]. *)
Lemma far_behind_step n fps alpha :
  in_bounds fps -> far_behind n alpha ->
  adjust_fps n fps alpha = (fps + 10) / 2.
Proof.
  intros [Hlo Hhi] [Ha0 Ha]. unfold min_fps, max_fps in *.
  assert (Hsafe : safe_fps n fps alpha = 10).
  { unfold safe_fps, min_fps. apply Z.max_l.
    assert (HF0 : (10 <= inject_Z fps)%Q)
      by (change 10%Q with (inject_Z 10); rewrite <- Zle_Qle; exact Hlo).
    assert (HF : (inject_Z fps <= 30)%Q)
      by (change 30%Q with (inject_Z 30); rewrite <- Zle_Qle; exact Hhi).
    pose proof (inject_nat_nonneg n) as HN.
    set (N := inject_Z (Z.of_nat n)) in *. set (F := inject_Z fps) in *.
    assert (H1 : (0 <= N * alpha)%Q) by nra.
    assert (H2 : (N * F * alpha <= N * 30 * alpha)%Q) by nra.
    assert (H3 : (N * F * alpha - 7 < inject_Z 11)%Q)
      by (change (inject_Z 11) with 11%Q; lra).
    pose proof (Qfloor_le (N * F * alpha - 7)) as Hfl.
    assert (H4 : (inject_Z (Qfloor (N * F * alpha - 7)) < inject_Z 11)%Q)
      by (eapply Qle_lt_trans; eassumption).
    rewrite <- Zlt_Qlt in H4. lia. }
  unfold adjust_fps. rewrite Hsafe. unfold max_fps. apply Z.min_r.
  apply Z.div_le_upper_bound; lia.
Qed.

Lemma fps_trace_last n alphas :
  forall fps, exists x, last (fps_trace n fps alphas) = Some x.
Proof.
  induction alphas as [| alpha rest IH]; intros fps; simpl; [eauto |].
  destruct (IH (adjust_fps n fps alpha)) as [x Hx]. exists x.
  rewrite last_cons, Hx. reflexivity.
Qed.

Lemma far_behind_descent n alphas :
  Forall (far_behind n) alphas ->
  forall fps gap x,
    min_fps <= fps -> fps <= min_fps + gap -> gap <= 20 ->
    last (fps_trace n fps alphas) = Some x ->
    min_fps <= x <= min_fps + gap / 2 ^ Z.of_nat (length alphas).
Proof.
  intros Hall. induction Hall as [| alpha rest Ha Hrest IH];
    intros fps gap x Hlo Hhi Hgap Hlast.
  - simpl in Hlast. injection Hlast as <-. simpl.
    rewrite Z.div_1_r. lia.
  - simpl fps_trace in Hlast. rewrite last_cons in Hlast.
    destruct (fps_trace_last n rest (adjust_fps n fps alpha)) as [y Hy].
    rewrite Hy in Hlast. injection Hlast as <-.
    assert (Hb : in_bounds fps) by (unfold in_bounds, min_fps, max_fps in *; lia).
    assert (Hstep : adjust_fps n fps alpha = (fps + 10) / 2)
      by (apply far_behind_step; assumption).
    unfold min_fps in *.
    assert (Hnext_lo : 10 <= adjust_fps n fps alpha)
      by (rewrite Hstep; apply Z.div_le_lower_bound; lia).
    assert (Hnext_hi : adjust_fps n fps alpha <= 10 + gap / 2).
    { rewrite Hstep.
      replace (10 + gap / 2) with ((10 * 2 + gap) / 2)
        by (rewrite Z.div_add_l by lia; reflexivity).
      apply Z.div_le_mono; lia. }
    assert (Hgap2 : gap / 2 <= 20)
      by (apply Z.div_le_upper_bound; lia).
    pose proof (IH _ (gap / 2) y Hnext_lo Hnext_hi Hgap2 Hy) as [Hy1 Hy2].
    split; [exact Hy1 |].
    replace (Z.of_nat (length (alpha :: rest)))
      with (1 + Z.of_nat (length rest)) by (simpl length; lia).
    rewrite Z.pow_add_r by lia. change (2 ^ 1) with 2.
    rewrite <- Z.div_div by (try lia; apply Z.pow_pos_nonneg; lia).
    exact Hy2.
Qed.

(** X9: starting within bounds, five rate updates in a row on slices served
    far behind real time bring [current_fps] down to exactly [min_fps],
    where it stays as long as the slices stay that slow. *)
Theorem far_behind_reaches_min_fps n fps alphas x :
  in_bounds fps -> Forall (far_behind n) alphas ->
  (5 <= length alphas)%nat ->
  last (fps_trace n fps alphas) = Some x ->
  x = min_fps.
Proof.
  intros [Hlo Hhi] Hall Hlen Hlast.
  pose proof (far_behind_descent n alphas Hall fps 20 x Hlo) as H.
  unfold min_fps, max_fps in *.
  destruct H as [H1 H2]; [lia | lia | exact Hlast |].
  assert (Hpow : 20 < 2 ^ Z.of_nat (length alphas)).
  { apply Z.lt_le_trans with (2 ^ 5); [reflexivity |].
    apply Z.pow_le_mono_r; lia. }
  rewrite Z.div_small in H2 by lia. lia.
Qed.

Lemma far_behind_reaches_min_fps_witness :
  last (fps_trace 2 30 (repeat (1 # 10)%Q 5)) = Some 10.
Proof.
  assert (H : exists x, last (fps_trace 2 30 (repeat (1 # 10)%Q 5)) = Some x)
    by apply fps_trace_last.
  destruct H as [x Hx]. rewrite Hx. f_equal.
  apply (far_behind_reaches_min_fps 2 30 (repeat (1 # 10)%Q 5) x).
  - unfold in_bounds, min_fps, max_fps. lia.
  - repeat constructor; try discriminate; reflexivity.
  - simpl. lia.
  - exact Hx.
Defined.

(** ** Job scheduling: further invariants *)

Lemma submit_job_pending self audio_path duration fps emotions use_a2e j :
  submit_job self (audio_path, duration) fps emotions use_a2e = Ok j ->
  round_robin (length (a2f_clients self)) use_a2e (chunks duration)
    (tasks j) /\
  forall (i : nat) t, tasks j !! i = Some t -> t_state t = Pending.
Proof.
  intros H. destruct (submit_job_start _ _ _ _ _ _ _ H) as (_ & -> & _).
  split; [split; [apply length_launch |] |].
  - intros i t Ht. unfold launch in Ht. rewrite list_lookup_imap in Ht.
    destruct (chunks duration !! i) as [[start end_] |]; simpl in Ht;
      [| discriminate Ht].
    injection Ht as <-. auto.
  - intros i t Ht. apply launch_lookup in Ht. tauto.
Qed.

(** *** One worker call per client *)

Lemma step_one_call j e j' :
  step j e = Some j' -> one_call_per_client j -> one_call_per_client j'.
Proof.
  intros H [Hheld Huniq].
  destruct (event_cases e) as [[i ->] | [[i He] | He]].
  - destruct (step_acquire_inv _ _ _ H)
      as [t (Ht & Hp & Hfree & Hl & Hts & _)].
    assert (Hother : forall (k : nat) u,
               tasks j !! k = Some u -> t_state u = Running ->
               client_idx u <> client_idx t).
    { intros k u Hu Hr Heq. rewrite <- Heq, (Hheld k u Hu Hr) in Hfree.
      discriminate Hfree. }
    split.
    + intros k u Hu Hr. rewrite Hl. rewrite Hts in Hu.
      apply list_lookup_insert_Some in Hu.
      destruct Hu as [(_ & <- & _) | [Hne Hu]].
      * apply list_lookup_insert_eq. eapply lookup_lt_Some, Hfree.
      * rewrite list_lookup_insert_ne by (apply not_eq_sym, (Hother k u Hu Hr)).
        exact (Hheld k u Hu Hr).
    + intros k k' u u' Hu Hu' Hr Hr' Hc. rewrite Hts in Hu, Hu'.
      apply list_lookup_insert_Some in Hu, Hu'.
      destruct Hu as [(<- & <- & _) | [Hne Hu]];
        destruct Hu' as [(<- & <- & _) | [Hne' Hu']].
      * reflexivity.
      * destruct (Hother k' u' Hu' Hr'). symmetry. exact Hc.
      * destruct (Hother k u Hu Hr). exact Hc.
      * exact (Huniq k k' u u' Hu Hu' Hr Hr' Hc).
  - destruct (step_finish_inv _ _ _ _ He H)
      as [t [s (Ht & Hrun & Hfin & Hl & Hts & _)]].
    assert (Hnot : t_state (set_state t s) <> Running).
    { unfold finished in Hfin. intros Heq. rewrite Heq in Hfin.
      discriminate Hfin. }
    split.
    + intros k u Hu Hr. rewrite Hl. rewrite Hts in Hu.
      apply list_lookup_insert_Some in Hu.
      destruct Hu as [(_ & <- & _) | [Hne Hu]]; [contradiction |].
      rewrite list_lookup_insert_ne; [exact (Hheld k u Hu Hr) |].
      intros Heq. apply Hne. exact (Huniq i k t u Ht Hu Hrun Hr Heq).
    + intros k k' u u' Hu Hu' Hr Hr' Hc. rewrite Hts in Hu, Hu'.
      apply list_lookup_insert_Some in Hu, Hu'.
      destruct Hu as [(_ & <- & _) | [Hne Hu]]; [contradiction |].
      destruct Hu' as [(_ & <- & _) | [Hne' Hu']]; [contradiction |].
      exact (Huniq k k' u u' Hu Hu' Hr Hr' Hc).
  - destruct (step_consumer_inv _ _ _ He H) as (Hm & Hts & _).
    unfold one_call_per_client. rewrite Hm, Hts. auto.
Qed.

Lemma run_one_call evs :
  forall j j', run j evs = Some j' -> one_call_per_client j ->
  one_call_per_client j'.
Proof.
  induction evs as [| e evs IH]; intros j j' H Hinv; simpl in H.
  - injection H as <-. exact Hinv.
  - destruct (step j e) as [j1 |] eqn:E; [| discriminate H].
    eapply IH; [exact H |]. eapply step_one_call; eassumption.
Qed.

(** X10: at every moment of a job each client serves at most one slice: two
    tasks that are both inside their worker call are bound to different
    clients, and the lock of a client that is serving a slice is held. *)
Theorem one_slice_per_client self loaded fps emotions use_a2e j0 evs j :
  submit_job self loaded fps emotions use_a2e = Ok j0 ->
  run j0 evs = Some j ->
  (forall (i i' : nat) t t',
     tasks j !! i = Some t -> tasks j !! i' = Some t' ->
     t_state t = Running -> t_state t' = Running -> i <> i' ->
     client_idx t <> client_idx t') /\
  (forall (i : nat) t, tasks j !! i = Some t -> t_state t = Running ->
     client_locks (manager j) !! client_idx t = Some true).
Proof.
  intros Hsub Hrun. destruct loaded as [audio_path duration].
  destruct (submit_job_pending _ _ _ _ _ _ _ Hsub) as [_ Hpend].
  assert (H0 : one_call_per_client j0).
  { split.
    - intros i t Ht Hr. rewrite (Hpend i t Ht) in Hr. discriminate Hr.
    - intros i i' t t' Ht _ Hr. rewrite (Hpend i t Ht) in Hr.
      discriminate Hr. }
  destruct (run_one_call _ _ _ Hrun H0) as [Hheld Huniq].
  split; [| exact Hheld].
  intros i i' t t' Ht Ht' Hr Hr' Hne Hc.
  apply Hne. exact (Huniq i i' t t' Ht Ht' Hr Hr' Hc).
Qed.

Lemma one_slice_per_client_witness :
  exists j0 j,
    submit_job idle_pair ("a.wav"%string, 1%Q) None None false = Ok j0 /\
    run j0 [Acquire 0; Acquire 1] = Some j /\
    step j (Acquire 2) = None /\
    forall (i : nat) t, tasks j !! i = Some t -> t_state t = Running ->
      client_locks (manager j) !! client_idx t = Some true.
Proof.
  eexists _, _.
  split; [vm_compute; reflexivity |].
  split; [vm_compute; reflexivity |].
  split; [vm_compute; reflexivity |].
  match goal with
  | |- forall (i : nat) t, tasks ?j !! i = Some t -> _ =>
      exact (proj2 (one_slice_per_client idle_pair ("a.wav"%string, 1%Q)
                      None None false _ [Acquire 0; Acquire 1] j
                      eq_refl eq_refl))
  end.
Defined.

(** *** Which calls reach the workers *)

Lemma round_robin_update n use_a2e cs ts (i : nat) t s :
  ts !! i = Some t -> round_robin n use_a2e cs ts ->
  round_robin n use_a2e cs (<[i := set_state t s]> ts).
Proof.
  intros Ht [Hlen Hall]. split; [rewrite length_insert; exact Hlen |].
  intros k u Hu. apply list_lookup_insert_Some in Hu.
  destruct Hu as [(<- & <- & _) | [_ Hu]]; [exact (Hall i t Ht) |].
  exact (Hall k u Hu).
Qed.

Lemma step_round_robin n use_a2e cs j e j' :
  step j e = Some j' -> round_robin n use_a2e cs (tasks j) ->
  round_robin n use_a2e cs (tasks j').
Proof.
  intros H Hrr.
  destruct (event_cases e) as [[i ->] | [[i He] | He]].
  - destruct (step_acquire_inv _ _ _ H) as [t (Ht & _ & _ & _ & -> & _)].
    apply round_robin_update; assumption.
  - destruct (step_finish_inv _ _ _ _ He H)
      as [t [s (Ht & _ & _ & _ & -> & _)]].
    apply round_robin_update; assumption.
  - destruct (step_consumer_inv _ _ _ He H) as (_ & -> & _). exact Hrr.
Qed.

(** A step appends at most the [generate_blendshapes] call of the task
    that takes its lock. *)
Lemma step_calls n use_a2e cs j e j' :
  step j e = Some j' -> round_robin n use_a2e cs (tasks j) ->
  calls j' = calls j \/
  exists c, calls j' = calls j ++ [c] /\ generates_slice n use_a2e cs c /\
            call_fps c = Some (current_fps (manager j)).
Proof.
  intros H [_ Hall].
  destruct (event_cases e) as [[i ->] | [[i He] | He]].
  - destruct (step_acquire_inv _ _ _ H)
      as [t (Ht & _ & _ & _ & _ & Hc & _)].
    right. eexists. split; [exact Hc |]. split; [| reflexivity].
    destruct (Hall i t Ht) as (Hci & Hcs & Ha).
    exists i, (t_start t), (t_end t), (current_fps (manager j)).
    split; [exact Hcs |]. rewrite Hci, Ha. reflexivity.
  - destruct (step_finish_inv _ _ _ _ He H)
      as [t [s (_ & _ & _ & _ & _ & Hc & _)]]. left. exact Hc.
  - destruct (step_consumer_inv _ _ _ He H) as (_ & _ & Hc). left. exact Hc.
Qed.

Lemma run_calls n use_a2e cs evs :
  forall j j', run j evs = Some j' ->
  round_robin n use_a2e cs (tasks j) ->
  round_robin n use_a2e cs (tasks j') /\
  exists gens, calls j' = calls j ++ gens /\
               Forall (generates_slice n use_a2e cs) gens.
Proof.
  induction evs as [| e evs IH]; intros j j' H Hrr; simpl in H.
  - injection H as <-. split; [exact Hrr |]. exists [].
    split; [rewrite app_nil_r; reflexivity | constructor].
  - destruct (step j e) as [j1 |] eqn:E; [| discriminate H].
    pose proof (step_round_robin _ _ _ _ _ _ E Hrr) as Hrr1.
    destruct (IH _ _ H Hrr1) as [Hrr' [gens [Hc Hall]]].
    split; [exact Hrr' |].
    destruct (step_calls _ _ _ _ _ _ E Hrr) as [H1 | [c (H1 & Hg & _)]].
    + exists gens. rewrite Hc, H1. auto.
    + exists (c :: gens). rewrite Hc, H1, <- app_assoc.
      split; [reflexivity | constructor; assumption].
Qed.

(** X11: throughout a job, task [i] stays bound to client
    [i mod len(a2f_clients)] and to slice [i]; the workers have received the
    setup calls first, once per client, and after them nothing but
    [generate_blendshapes] calls, each for a slice of the job on the client
    its index selects, with the job's [use_a2e] flag. *)
Theorem setup_then_round_robin self audio_path duration fps emotions use_a2e
    j0 evs j :
  submit_job self (audio_path, duration) fps emotions use_a2e = Ok j0 ->
  run j0 evs = Some j ->
  round_robin (length (a2f_clients self)) use_a2e (chunks duration)
    (tasks j) /\
  exists gens,
    calls j =
      setup_calls (length (a2f_clients self)) audio_path emotions ++ gens /\
    Forall
      (generates_slice (length (a2f_clients self)) use_a2e (chunks duration))
      gens.
Proof.
  intros Hsub Hrun.
  destruct (submit_job_pending _ _ _ _ _ _ _ Hsub) as [Hrr _].
  destruct (submit_job_start _ _ _ _ _ _ _ Hsub) as (_ & _ & Hc0 & _).
  destruct (run_calls _ _ _ _ _ _ Hrun Hrr) as [Hrr' [gens [Hc Hall]]].
  split; [exact Hrr' |]. exists gens. rewrite Hc, Hc0. auto.
Qed.

Lemma setup_then_round_robin_witness :
  exists j0 j gens,
    submit_job idle_pair ("a.wav"%string, 1%Q) None None false = Ok j0 /\
    run j0 worker1_first = Some j /\
    calls j = setup_calls 2 "a.wav"%string None ++ gens /\
    Forall (generates_slice 2 false (chunks 1)) gens.
Proof.
  eexists _, _.
  match goal with
  | |- exists gens, ?A /\ ?B /\ _ =>
      assert (Ha : A) by (vm_compute; reflexivity);
      assert (Hb : B) by (vm_compute; reflexivity)
  end.
  destruct (setup_then_round_robin idle_pair "a.wav"%string 1%Q None None
              false _ worker1_first _ Ha Hb) as [_ [gens [Hc Hall]]].
  exists gens. auto.
Defined.

(** *** One worker call per slice *)









(** *** The rates the workers are asked for *)

Lemma run_call_fps n use_a2e cs evs :
  forall j j', run j evs = Some j' ->
  round_robin n use_a2e cs (tasks j) ->
  in_bounds (current_fps (manager j)) ->
  Forall (fun c => forall f, call_fps c = Some f -> in_bounds f) (calls j) ->
  Forall (fun c => forall f, call_fps c = Some f -> in_bounds f) (calls j').
Proof.
  induction evs as [| e evs IH]; intros j j' H Hrr Hb Hall; simpl in H.
  - injection H as <-. exact Hall.
  - destruct (step j e) as [j1 |] eqn:E; [| discriminate H].
    apply (IH _ _ H).
    + eapply step_round_robin; eassumption.
    + eapply step_in_bounds; eassumption.
    + destruct (step_calls _ _ _ _ _ _ E Hrr) as [-> | [c (-> & _ & Hf)]];
        [exact Hall |].
      apply Forall_app. split; [exact Hall |].
      constructor; [| constructor]. intros f Hcf. rewrite Hf in Hcf.
      injection Hcf as <-. exact Hb.
Qed.

(** X13: when the request names no fps, or one within
    [[min_fps, max_fps]], every [generate_blendshapes] call of the job asks
    for a frame rate within [[min_fps, max_fps]]. *)
Theorem generate_fps_in_bounds self audio_path duration fps emotions use_a2e
    j0 evs j :
  match fps with None => True | Some f => in_bounds f end ->
  submit_job self (audio_path, duration) fps emotions use_a2e = Ok j0 ->
  run j0 evs = Some j ->
  Forall (fun c => forall f, call_fps c = Some f -> in_bounds f) (calls j).
Proof.
  intros Hfps Hsub Hrun.
  destruct (submit_job_pending _ _ _ _ _ _ _ Hsub) as [Hrr _].
  destruct (submit_job_start _ _ _ _ _ _ _ Hsub) as (Hm & _ & Hc0 & _).
  eapply run_call_fps; [exact Hrun | exact Hrr | |].
  - rewrite Hm. simpl. destruct fps as [f |]; [exact Hfps |].
    unfold in_bounds, default_fps, min_fps, max_fps. lia.
  - rewrite Hc0. eapply Forall_impl; [apply setup_calls_no_generate |].
    intros c Hc f Hf. destruct c; simpl in *; discriminate.
Qed.

Lemma generate_fps_in_bounds_witness :
  exists j0 j,
    submit_job idle_pair ("a.wav"%string, 1%Q) (Some 20) None false = Ok j0 /\
    run j0 worker1_first = Some j /\
    Forall (fun c => forall f, call_fps c = Some f -> in_bounds f) (calls j).
Proof.
  eexists _, _.
  match goal with
  | |- ?A /\ ?B /\ _ =>
      assert (Ha : A) by (vm_compute; reflexivity);
      assert (Hb : B) by (vm_compute; reflexivity)
  end.
  split; [exact Ha |]. split; [exact Hb |].
  refine (generate_fps_in_bounds idle_pair "a.wav"%string 1%Q (Some 20) None
            false _ worker1_first _ _ Ha Hb).
  unfold in_bounds, min_fps, max_fps. lia.
Defined.

(** *** What is done stays done *)

Lemma step_final j e j' :
  step j e = Some j' ->
  (exists more, emitted j' = emitted j ++ more) /\
  (forall (i : nat) t, tasks j !! i = Some t -> finished t = true ->
     tasks j' !! i = Some t) /\
  (stream j <> Open ->
   stream j' = stream j /\ emitted j' = emitted j /\ idx j' = idx j).
Proof.
  intros H.
  destruct (event_cases e) as [[i ->] | [[i He] | [-> | ->]]].
  - destruct (step_acquire_inv _ _ _ H)
      as [t (Ht & Hp & _ & _ & Hts & _ & Hi & He & Hs)].
    split; [exists []; rewrite He, app_nil_r; reflexivity |].
    split; [| auto].
    intros k u Hu Hfin. rewrite Hts, list_lookup_insert_ne; [exact Hu |].
    intros <-. rewrite Ht in Hu. injection Hu as <-.
    unfold finished in Hfin. rewrite Hp in Hfin. discriminate Hfin.
  - destruct (step_finish_inv _ _ _ _ He H)
      as [t [s (Ht & Hr & _ & _ & Hts & _ & Hi & Hem & Hs)]].
    split; [exists []; rewrite Hem, app_nil_r; reflexivity |].
    split; [| auto].
    intros k u Hu Hfin. rewrite Hts, list_lookup_insert_ne; [exact Hu |].
    intros <-. rewrite Ht in Hu. injection Hu as <-.
    unfold finished in Hfin. rewrite Hr in Hfin. discriminate Hfin.
  - unfold step in H. destruct (stream j) eqn:Hs; try discriminate H.
    split; [| split; [| intros Hne; destruct Hne; reflexivity]].
    + destruct (tasks j !! idx j) as [t |];
        [destruct (t_state t); try discriminate H |];
        injection H as <-; simpl;
        first [exists []; rewrite app_nil_r; reflexivity | eauto].
    + intros k u Hu _.
      destruct (tasks j !! idx j) as [t |];
        [destruct (t_state t); try discriminate H |];
        injection H as <-; exact Hu.
  - unfold step in H. destruct (stream j) eqn:Hs; try discriminate H.
    destruct (idx j); try discriminate H. injection H as <-. simpl.
    split; [exists []; rewrite app_nil_r; reflexivity |].
    split; [auto |]. intros Hne. destruct Hne. reflexivity.
Qed.

Lemma run_final evs :
  forall j j', run j evs = Some j' ->
  (exists more, emitted j' = emitted j ++ more) /\
  (forall (i : nat) t, tasks j !! i = Some t -> finished t = true ->
     tasks j' !! i = Some t) /\
  (stream j <> Open ->
   stream j' = stream j /\ emitted j' = emitted j /\ idx j' = idx j).
Proof.
  induction evs as [| e evs IH]; intros j j' H; simpl in H.
  - injection H as <-. split; [exists []; rewrite app_nil_r; reflexivity |].
    auto.
  - destruct (step j e) as [j1 |] eqn:E; [| discriminate H].
    destruct (step_final _ _ _ E) as ([m1 Hm1] & Hk1 & Hs1).
    destruct (IH _ _ H) as ([m2 Hm2] & Hk2 & Hs2).
    split; [exists (m1 ++ m2); rewrite Hm2, Hm1, app_assoc; reflexivity |].
    split; [intros i t Ht Hfin; apply Hk2; auto |].
    intros Hne. destruct (Hs1 Hne) as (Hst1 & He1 & Hi1).
    destruct Hs2 as (Hst2 & He2 & Hi2); [congruence |].
    repeat split; congruence.
Qed.

(** X14: results are never retracted and never redone: along any run the
    records yielded so far remain, in place, at the head of the output; a
    task that has finished keeps its payload or its exception for good (no
    retry); and once the stream is exhausted, closed or ended by an error,
    no further record is yielded. *)
Theorem results_are_final j evs j' :
  run j evs = Some j' ->
  (exists more, emitted j' = emitted j ++ more) /\
  (forall (i : nat) t, tasks j !! i = Some t -> finished t = true ->
     tasks j' !! i = Some t) /\
  (stream j <> Open ->
   stream j' = stream j /\ emitted j' = emitted j /\ idx j' = idx j).
Proof. apply run_final. Qed.

Lemma results_are_final_witness :
  exists j0 j j',
    submit_job idle_pair ("a.wav"%string, 1%Q) None None false = Ok j0 /\
    run j0 [Acquire 0; Return 0 [1%Q] 1; Next] = Some j /\
    run j [Acquire 1; Throw 1 RuntimeError; Next; Acquire 2] = Some j' /\
    exists more, emitted j' = emitted j ++ more.
Proof.
  eexists _, _, _.
  split; [vm_compute; reflexivity |].
  split; [vm_compute; reflexivity |].
  match goal with
  | |- ?A /\ _ => assert (Ha : A) by (vm_compute; reflexivity)
  end.
  split; [exact Ha |].
  exact (proj1 (results_are_final _ _ _ Ha)).
Defined.

(** *** A failed slice ends the stream *)

Lemma step_errored j e j' :
  step j e = Some j' -> errored_at_failure j -> errored_at_failure j'.
Proof.
  intros H Hinv c Hc.
  destruct (stream j) eqn:Hs.
  - (* the stream was open: only [Next] can end it with an error *)
    destruct (event_cases e) as [[i ->] | [[i He] | [-> | ->]]].
    + destruct (step_acquire_inv _ _ _ H) as [t (_ & _ & _ & _ & _ & _ & _ & _ & Hst)].
      rewrite Hst, Hs in Hc. discriminate Hc.
    + destruct (step_finish_inv _ _ _ _ He H)
        as [t [s (_ & _ & _ & _ & _ & _ & _ & _ & Hst)]].
      rewrite Hst, Hs in Hc. discriminate Hc.
    + unfold step in H. rewrite Hs in H.
      destruct (tasks j !! idx j) as [t |] eqn:Ht.
      * destruct (t_state t) eqn:Hst; try discriminate H;
          injection H as <-; simpl in *; try discriminate Hc.
        injection Hc as <-. exists t. auto.
      * injection H as <-. discriminate Hc.
    + unfold step in H. rewrite Hs in H.
      destruct (idx j); try discriminate H. injection H as <-.
      discriminate Hc.
  - destruct (step_final _ _ _ H) as (_ & _ & Hstay).
    destruct Hstay as (Hst & _ & _); [rewrite Hs; discriminate |].
    rewrite Hst, Hs in Hc. discriminate Hc.
  - destruct (step_final _ _ _ H) as (_ & _ & Hstay).
    destruct Hstay as (Hst & _ & _); [rewrite Hs; discriminate |].
    rewrite Hst, Hs in Hc. discriminate Hc.
  - destruct (step_final _ _ _ H) as (_ & Hkeep & Hstay).
    destruct Hstay as (Hst & _ & Hi); [rewrite Hs; discriminate |].
    rewrite Hst, Hs in Hc. injection Hc as <-.
    destruct (Hinv c0 Hs) as [t [Ht Hf]].
    exists t. rewrite Hi. split; [| exact Hf].
    apply Hkeep; [exact Ht |]. unfold finished. rewrite Hf. reflexivity.
Qed.

Lemma run_errored evs :
  forall j j', run j evs = Some j' -> errored_at_failure j ->
  errored_at_failure j'.
Proof.
  induction evs as [| e evs IH]; intros j j' H Hinv; simpl in H.
  - injection H as <-. exact Hinv.
  - destruct (step j e) as [j1 |] eqn:E; [| discriminate H].
    eapply IH; [exact H |]. eapply step_errored; eassumption.
Qed.

Lemma submit_job_drained self loaded fps emotions use_a2e j :
  submit_job self loaded fps emotions use_a2e = Ok j ->
  drained_in_order j /\ errored_at_failure j.
Proof.
  destruct loaded as [audio_path duration]. intros H.
  destruct (submit_job_start _ _ _ _ _ _ _ H)
    as (_ & _ & _ & Hi & Hem & Hst & _).
  split.
  - unfold drained_in_order. rewrite Hi, Hem, Hst. simpl.
    split; [reflexivity |]. split; [lia |].
    split; [intros k r Hk; discriminate Hk | discriminate].
  - intros c Hc. rewrite Hst in Hc. discriminate Hc.
Qed.

(** X15: a stream ends with an exception only at a slice whose task failed
    with that exception: the records of all earlier slices were yielded, in
    order, the failed slice and the later ones never are, and the failed
    task is not run again. *)
Theorem failure_truncates_stream self loaded fps emotions use_a2e j0 evs j c :
  submit_job self loaded fps emotions use_a2e = Ok j0 ->
  run j0 evs = Some j ->
  stream j = Errored c ->
  (exists t, tasks j !! idx j = Some t /\ t_state t = Failed c) /\
  map fst (emitted j) = seq 0 (idx j) /\
  forall evs' j', run j evs' = Some j' ->
    stream j' = Errored c /\ emitted j' = emitted j /\
    exists t, tasks j' !! idx j = Some t /\ t_state t = Failed c.
Proof.
  intros Hsub Hrun Hc.
  destruct (submit_job_drained _ _ _ _ _ _ Hsub) as [Hdr0 Herr0].
  pose proof (run_errored _ _ _ Hrun Herr0 c Hc) as [t [Ht Hf]].
  split; [eauto |].
  split; [apply drained_chunk_ids; eapply run_drained; eassumption |].
  intros evs' j' Hrun'.
  destruct (run_final _ _ _ Hrun') as (_ & Hkeep & Hstay).
  destruct Hstay as (Hst & Hem & _); [rewrite Hc; discriminate |].
  split; [congruence |]. split; [exact Hem |].
  exists t. split; [| exact Hf].
  apply Hkeep; [exact Ht |]. unfold finished. rewrite Hf. reflexivity.
Qed.

Lemma failure_truncates_stream_witness :
  exists j0 j,
    submit_job idle_pair ("a.wav"%string, 1%Q) None None false = Ok j0 /\
    run j0 [Acquire 0; Acquire 1; Throw 1 RuntimeError; Return 0 [1%Q] 1;
            Next; Next] = Some j /\
    stream j = Errored RuntimeError /\
    map fst (emitted j) = [0%nat].
Proof.
  eexists _, _.
  match goal with
  | |- ?A /\ ?B /\ ?C /\ _ =>
      assert (Ha : A) by (vm_compute; reflexivity);
      assert (Hb : B) by (vm_compute; reflexivity);
      assert (Hc : C) by reflexivity
  end.
  split; [exact Ha |]. split; [exact Hb |]. split; [exact Hc |].
  exact (proj1 (proj2 (failure_truncates_stream idle_pair
                         ("a.wav"%string, 1%Q) None None false _ _ _ _
                         Ha Hb Hc))).
Defined.

(** *** A call measured at zero seconds *)

(** X16: when the measured wall time of a worker call is zero, the rate
    update divides by zero: the task fails with [ZeroDivisionError] although
    the worker returned a payload, the lock of its client is released,
    [current_fps] is left unchanged, and when the draining loop reaches that
    slice the stream ends with the exception, the payload never yielded. *)
Theorem zero_elapsed_fails_slice j (i : nat) t payload elapsed_time :
  tasks j !! i = Some t -> t_state t = Running ->
  (elapsed_time == 0)%Q ->
  (client_idx t < length (client_locks (manager j)))%nat ->
  exists j',
    step j (Return i payload elapsed_time) = Some j' /\
    tasks j' !! i = Some (set_state t (Failed ZeroDivisionError)) /\
    client_locks (manager j') !! client_idx t = Some false /\
    current_fps (manager j') = current_fps (manager j) /\
    emitted j' = emitted j /\
    (stream j = Open -> idx j = i ->
     exists j'',
       step j' Next = Some j'' /\
       stream j'' = Errored ZeroDivisionError /\
       emitted j'' = emitted j).
Proof.
  intros Ht Hr Hz Hc. unfold step at 1. rewrite Ht, Hr.
  unfold throughput. rewrite (proj2 (Qeq_bool_iff _ _) Hz).
  eexists. split; [reflexivity |]. simpl.
  assert (Hi : tasks j !! i = Some t) by exact Ht.
  apply lookup_lt_Some in Hi.
  split; [apply list_lookup_insert_eq; exact Hi |].
  split; [apply list_lookup_insert_eq; exact Hc |].
  split; [reflexivity |]. split; [reflexivity |].
  intros Hs <-. unfold step. simpl. rewrite Hs.
  rewrite list_lookup_insert_eq by exact Hi. simpl.
  eexists. split; [reflexivity |]. split; reflexivity.
Qed.

Lemma zero_elapsed_fails_slice_witness :
  exists j0 j j',
    submit_job idle_pair ("a.wav"%string, 1%Q) None None false = Ok j0 /\
    run j0 [Acquire 0] = Some j /\
    step j (Return 0 [1%Q] 0) = Some j' /\
    client_locks (manager j') = [false; false] /\
    current_fps (manager j') = 10.
Proof.
  eexists _, _.
  match goal with
  | |- exists j', ?A /\ ?B /\ _ =>
      assert (Ha : A) by (vm_compute; reflexivity);
      assert (Hb : B) by (vm_compute; reflexivity)
  end.
  match type of Hb with
  | run _ _ = Some ?j =>
      destruct (zero_elapsed_fails_slice j 0
                  (mkTask 0 (inject_Z 0 * chunk_size)
                     (Qmin (inject_Z (0 + 1) * chunk_size) 1) false Running)
                  [1%Q] 0%Q)
        as [j' (Hstep & _ & _ & Hfps & _)]
  end.
  - vm_compute. reflexivity.
  - reflexivity.
  - reflexivity.
  - simpl. lia.
  - exists j'. split; [exact Ha |]. split; [exact Hb |].
    split; [exact Hstep |].
    vm_compute in Hstep. injection Hstep as <-.
    split; reflexivity.
Defined.

(** ** The upload: proofs *)

Lemma as_server_error_cases {A} (e : raised) :
  @as_server_error A e = raises (http_exception 500) \/
  exists c, e = builtin c /\ issubclass c Exception = false /\
            @as_server_error A e = raises (builtin c).
Proof.
  unfold as_server_error. destruct e as [c | status]; simpl; [| auto].
  destruct (issubclass c Exception) eqn:Hc; eauto.
Qed.

Lemma save_audio_file_cases b64decode tmp_dir token fs up fs' r :
  save_audio_file b64decode tmp_dir token fs up = (fs', r) ->
  (exists decoded,
     r = returns (temp_name tmp_dir token) /\
     fs' = <[temp_name tmp_dir token := decoded]> fs) \/
  r = raises (http_exception 500) \/
  (exists c, issubclass c Exception = false /\ r = raises (builtin c)).
Proof.
  intros H. unfold save_audio_file in H.
  assert (Hcases : forall e : raised,
             @as_server_error string e = raises (http_exception 500) \/
             exists c, issubclass c Exception = false /\
                       @as_server_error string e = raises (builtin c)).
  { intros e. destruct (as_server_error_cases (A := string) e)
      as [-> | [c (_ & Hc & ->)]]; eauto. }
  destruct (read_outcome up) as [content | c0];
    [destruct (decode_audio_content b64decode content) as [decoded | e];
     [destruct (create_outcome up) as [[] | c1];
      [destruct (write_outcome up) as [[] | c2] |] |] |];
    injection H as <- <-; try (right; apply Hcases).
  left. eauto.
Qed.

(** X17: [save_audio_file] either stores the decoded upload under the
    temporary name and returns that name, or raises: status 500 for every
    failure that is an [Exception] - the status 400 of
    [decode_audio_content] for invalid base64 included, which never leaves
    the function - and otherwise the exception itself.  Content that starts
    with [b"RIFF"] is stored as it is, and no file but the temporary one is
    touched. *)
Theorem save_audio_file_outcomes b64decode tmp_dir token fs up fs' r :
  save_audio_file b64decode tmp_dir token fs up = (fs', r) ->
  ((exists content decoded,
      read_outcome up = Ok content /\
      decode_audio_content b64decode content = returns decoded /\
      (startswith content RIFF = true -> decoded = content) /\
      r = returns (temp_name tmp_dir token) /\
      fs' = <[temp_name tmp_dir token := decoded]> fs) \/
   r = raises (http_exception 500) \/
   (exists c, issubclass c Exception = false /\ r = raises (builtin c))) /\
  r <> raises (http_exception 400) /\
  (forall name, name <> temp_name tmp_dir token -> fs' !! name = fs !! name) /\
  (forall content c,
     read_outcome up = Ok content -> startswith content RIFF = false ->
     b64decode content = Raised c -> issubclass c Exception = true ->
     r = raises (http_exception 500) /\ fs' = fs).
Proof.
  intros H. unfold save_audio_file in H.
  assert (Hother : forall name decoded,
             name <> temp_name tmp_dir token ->
             <[temp_name tmp_dir token := decoded]> fs !! name = fs !! name).
  { intros name decoded Hne. apply lookup_insert_ne. congruence. }
  assert (Hcases : forall e : raised,
             @as_server_error string e <> raises (http_exception 400) /\
             (@as_server_error string e = raises (http_exception 500) \/
              exists c, issubclass c Exception = false /\
                        @as_server_error string e = raises (builtin c))).
  { intros e. destruct (as_server_error_cases (A := string) e)
      as [-> | [c (_ & Hc & ->)]].
    - split; [discriminate | left; reflexivity].
    - split; [discriminate | right; eauto]. }
  destruct (read_outcome up) as [content | c0] eqn:Hread.
  - destruct (decode_audio_content b64decode content) as [decoded | e]
      eqn:Hdec.
    + assert (Hriff : startswith content RIFF = true -> decoded = content).
      { intros Hr. unfold decode_audio_content in Hdec. rewrite Hr in Hdec.
        injection Hdec as <-. reflexivity. }
      assert (Hbad : forall c,
                 startswith content RIFF = false ->
                 b64decode content = Raised c ->
                 issubclass c Exception = true -> False).
      { intros c Hr Hb Hc. unfold decode_audio_content in Hdec.
        rewrite Hr, Hb, Hc in Hdec. discriminate Hdec. }
      destruct (create_outcome up) as [[] | c1].
      * destruct (write_outcome up) as [[] | c2]; injection H as <- <-.
        -- split; [left; exists content, decoded; auto |].
           split; [discriminate |]. split; [auto |].
           intros content' c Hc' Hr Hb Hc. injection Hc' as <-.
           destruct (Hbad c Hr Hb Hc).
        -- destruct (Hcases (builtin c2)) as [Hne Hor].
           split; [right; exact Hor |]. split; [exact Hne |].
           split; [auto |].
           intros content' c Hc' Hr Hb Hc. injection Hc' as <-.
           destruct (Hbad c Hr Hb Hc).
      * injection H as <- <-. destruct (Hcases (builtin c1)) as [Hne Hor].
        split; [right; exact Hor |]. split; [exact Hne |].
        split; [auto |].
        intros content' c Hc' Hr Hb Hc. injection Hc' as <-.
        destruct (Hbad c Hr Hb Hc).
    + injection H as <- <-. destruct (Hcases e) as [Hne Hor].
      split; [right; exact Hor |]. split; [exact Hne |]. split; [auto |].
      intros content' c Hc' Hr Hb Hc. injection Hc' as <-.
      unfold decode_audio_content in Hdec. rewrite Hr, Hb, Hc in Hdec.
      injection Hdec as <-. split; reflexivity.
  - injection H as <- <-. destruct (Hcases (builtin c0)) as [Hne Hor].
    split; [right; exact Hor |]. split; [exact Hne |]. split; [auto |].
    intros content c Hc'. discriminate Hc'.
Qed.

Lemma save_audio_file_outcomes_witness :
  save_audio_file no_base64 "tmp" "00ff" ∅ (clean_upload [Byte.x7b]) =
    (∅, raises (http_exception 500)).
Proof.
  destruct (save_audio_file no_base64 "tmp" "00ff" ∅
              (clean_upload [Byte.x7b])) as [fs' r] eqn:Hs.
  destruct (save_audio_file_outcomes _ _ _ _ _ _ _ Hs) as (_ & _ & _ & Hbad).
  destruct (Hbad [Byte.x7b] ValueError) as [-> ->]; reflexivity.
Defined.

(** X18: removing the temporary file undoes the save: when the name was
    free before, [cleanup_temp_file] after a successful [save_audio_file]
    leaves the directory as it was; and [cleanup_temp_file] on a file that
    does not exist changes nothing and raises nothing. *)
Theorem cleanup_undoes_save b64decode tmp_dir token fs up fs' name remove :
  save_audio_file b64decode tmp_dir token fs up = (fs', returns name) ->
  fs !! name = None ->
  cleanup_temp_file fs' name (Ok tt) = (fs, returns tt) /\
  cleanup_temp_file fs name remove = (fs, returns tt).
Proof.
  intros Hs Hfree.
  destruct (save_audio_file_cases _ _ _ _ _ _ _ Hs)
    as [(decoded & Hr & ->) | [Hr | [c [_ Hr]]]]; try discriminate Hr.
  injection Hr as ->. unfold cleanup_temp_file.
  rewrite lookup_insert_eq, Hfree. split; [| reflexivity].
  rewrite delete_insert_id by exact Hfree. reflexivity.
Qed.

Lemma cleanup_undoes_save_witness :
  cleanup_temp_file
    (<[temp_name "tmp" "00ff" := RIFF]> ∅) (temp_name "tmp" "00ff") (Ok tt) =
    (∅, returns tt).
Proof.
  apply (cleanup_undoes_save no_base64 "tmp" "00ff" ∅ (clean_upload RIFF)
           _ _ (Ok tt)); reflexivity.
Defined.

(** X19: a request refused for its manager or its emotion weights writes
    nothing; and when writing the upload fails with an [Exception], the
    request is answered with status 500 while the temporary file, with what
    was written of it, stays in the directory. *)
Theorem refused_and_failed_uploads b64decode tmp_dir token fs up parse
    load_audio fps :
  (forall emotions,
     process_audio_upload b64decode tmp_dir token fs up None parse
       load_audio fps emotions = (fs, HTTPException 500)) /\
  (forall self text c,
     text <> EmptyString -> parse text = Raised c ->
     fst (process_audio_upload b64decode tmp_dir token fs up (Some self)
            parse load_audio fps (Some text)) = fs) /\
  (forall self emotions content decoded c,
     (forall text, emotions = Some text -> text <> EmptyString ->
        exists weights, parse text = Ok weights) ->
     read_outcome up = Ok content ->
     decode_audio_content b64decode content = returns decoded ->
     create_outcome up = Ok tt ->
     write_outcome up = Raised c -> issubclass c Exception = true ->
     process_audio_upload b64decode tmp_dir token fs up (Some self) parse
       load_audio fps emotions =
     (<[temp_name tmp_dir token := take (written up) decoded]> fs,
      HTTPException 500)).
Proof.
  split; [reflexivity |]. split.
  - intros self text c Hne Hparse. unfold process_audio_upload.
    destruct text as [| a text]; [contradiction |]. rewrite Hparse.
    reflexivity.
  - intros self emotions content decoded c Hparse Hread Hdec Hcreate Hwrite
      Hc.
    assert (Hsave : save_audio_file b64decode tmp_dir token fs up =
                    (<[temp_name tmp_dir token := take (written up) decoded]>
                       fs, raises (http_exception 500))).
    { unfold save_audio_file. rewrite Hread, Hdec, Hcreate, Hwrite.
      unfold as_server_error. simpl. rewrite Hc. reflexivity. }
    unfold process_audio_upload.
    destruct emotions as [[| a text] |].
    + rewrite Hsave. reflexivity.
    + destruct (Hparse (String a text) eq_refl) as [weights ->];
        [discriminate |].
      rewrite Hsave. reflexivity.
    + rewrite Hsave. reflexivity.
Qed.

Lemma refused_and_failed_uploads_witness :
  process_audio_upload no_base64 "tmp" "00ff" ∅ (disk_full RIFF 2)
    (Some idle_pair) reject_all empty_recording None None =
  (<[temp_name "tmp" "00ff" := [Byte.x52; Byte.x49]]> ∅, HTTPException 500).
Proof.
  destruct (refused_and_failed_uploads no_base64 "tmp" "00ff" ∅
              (disk_full RIFF 2) reject_all empty_recording None)
    as (_ & _ & H).
  apply (H idle_pair None RIFF RIFF OSError); try reflexivity.
  intros text Ht. discriminate Ht.
Defined.


